(** * Beacon node paths, configuration composition and lifecycle

    A shallow embedding of [packages/lodestar-cli/src/cmds/beacon/paths.ts]
    ([getBeaconPaths]) and of the [BeaconNode] class that follows it in the
    same file (constructor, [start], [stop]).

    - [Paths]      : [getBeaconPaths], strings as [string], optional fields
                     as [option string], the JavaScript [||] and [&&] on
                     strings written out.
    - [Compose]    : the configuration merge performed on the first line of
                     the constructor.
    - [Lifecycle]  : [start] and [stop] as programs of a small asynchronous
                     monad over a trace of service calls.
    - [Construct]  : the constructor as a program of a state-and-exception
                     monad over [this], a heap of allocated instances and
                     promises. *)

From Stdlib Require Import Ascii String ZArith Lia.
From stdpp Require Import base strings list pretty.

Local Open Scope string_scope.
Local Open Scope list_scope.

#[local] Set Warnings "-register-all".
#[local] Set Warnings "-automation".
#[local] Set Warnings "-default".

(** ** JavaScript truthiness on optional strings *)

(** [o || d] where [o : string | undefined] and [d : string]: [undefined]
    and the empty string are falsy. *)
Definition or_else (o : option string) (d : string) : string :=
  match o with
  | Some s => if String.eqb s "" then d else s
  | None => d
  end.

(** [o && f(o)] where [o : string | undefined]: a falsy [o] is returned as it
    is ([undefined] or the empty string), otherwise [f o]. *)
Definition and_then (o : option string) (f : string -> string) : option string :=
  match o with
  | Some s => if String.eqb s "" then Some s else Some (f s)
  | None => None
  end.

Module Paths.

(** [Partial<IBeaconPaths> & Pick<IGlobalArgs, "rootDir">]: every field of
    [IBeaconPaths] optional, [rootDir] required. *)
Record Options := {
  rootDir : string;
  opt_beaconDir : option string;
  opt_peerStoreDir : option string;
  opt_dbDir : option string;
  opt_configFile : option string;
  opt_peerIdFile : option string;
  opt_enrFile : option string;
  opt_logFile : option string
}.

Record IBeaconPaths := {
  beaconDir : string;
  peerStoreDir : string;
  dbDir : string;
  configFile : string;
  peerIdFile : string;
  enrFile : string;
  logFile : option string
}.

(** Options with only a root directory, as in
    [getBeaconPaths({rootDir: "$rootDir"})]. *)
Definition only_root (r : string) : Options :=
  {| rootDir := r; opt_beaconDir := None; opt_peerStoreDir := None;
     opt_dbDir := None; opt_configFile := None; opt_peerIdFile := None;
     opt_enrFile := None; opt_logFile := None |}.

Section WithHelpers.

(** The two imported helpers, [getGlobalPaths(options).rootDir] and
    [joinIfRelative], are defined in other files. *)
Variable globalRootDir : Options -> string.
Variable joinIfRelative : string -> string -> string.

Definition getBeaconPaths (options : Options) : IBeaconPaths :=
  let beaconDir := globalRootDir options in
  let dbDir := joinIfRelative beaconDir (or_else (opt_dbDir options) "chain-db") in
  let peerStoreDir := joinIfRelative beaconDir (or_else (opt_dbDir options) "peerstore") in
  let configFile := joinIfRelative beaconDir (or_else (opt_configFile options) "beacon.config.json") in
  let peerIdFile := joinIfRelative beaconDir (or_else (opt_peerIdFile options) "peer-id.json") in
  let enrFile := joinIfRelative beaconDir (or_else (opt_enrFile options) "enr.json") in
  let logFile := and_then (opt_logFile options) (joinIfRelative beaconDir) in
  {| beaconDir := beaconDir;
     dbDir := dbDir;
     configFile := configFile;
     peerStoreDir := peerStoreDir;
     peerIdFile := peerIdFile;
     enrFile := enrFile;
     logFile := logFile |}.

(** What the specification documents for [peerStoreDir]: the
    [peerStoreDir] override when supplied, else the default name, joined
    onto the base. *)
Definition expected_peerStoreDir (options : Options) : string :=
  joinIfRelative (globalRootDir options)
                 (or_else (opt_peerStoreDir options) "peerstore").

End WithHelpers.

(** Modelled from the spec: the test for "an absolute filesystem path" that
    [joinIfRelative] makes; a path is absolute when it starts at the root. *)
Definition isAbsolute (p : string) : bool :=
  match p with
  | String c _ => Ascii.eqb c "/"%char
  | EmptyString => false
  end.

(** Modelled from the spec: [joinIfRelative], imported from [../../util].
    "If the supplied value is an absolute filesystem path, return it
    unchanged; otherwise join it onto base." *)
Definition joinIfRelative_spec (base p : string) : string :=
  if isAbsolute p then p else (base ++ "/" ++ p)%string.

(** Modelled from the spec: [getGlobalPaths], imported from
    [../../paths/global].  "[base] is required and denotes the node
    instance's root directory." *)
Definition globalRootDir_spec (options : Options) : string := rootDir options.

Definition resolve : Options -> IBeaconPaths :=
  getBeaconPaths globalRootDir_spec joinIfRelative_spec.

Definition defaultBeaconPaths : IBeaconPaths := resolve (only_root "$rootDir").

End Paths.

(** ** Configuration values

    What a configuration tree can hold: primitives, arrays, plain records
    (object literals), instances of classes (a [Map] of logging levels, an
    [ethers.Provider]), constructor functions (the entries of [api.apis])
    and references to objects allocated while the node is built. *)
Inductive value :=
| VUndefined
| VNull
| VBool (b : bool)
| VNum (n : Z)
| VStr (s : string)
| VArray (items : list value)
| VRecord (fields : list (string * value))
| VOpaque (cls : string) (fields : list (string * value))
| VCtor (cls : string)
| VRef (a : nat).

(** Property lookup in the field list of an object: first binding wins. *)
Fixpoint assoc (k : string) (fs : list (string * value)) : option value :=
  match fs with
  | [] => None
  | (k', v) :: rest => if String.eqb k k' then Some v else assoc k rest
  end.

Definition has_key (k : string) (fs : list (string * value)) : bool :=
  match assoc k fs with Some _ => true | None => false end.

(** What [v || ...] tests: [undefined], [null], [false], [0] and the empty
    string are falsy, everything else is truthy. *)
Definition truthy (v : value) : bool :=
  match v with
  | VUndefined | VNull => false
  | VBool b => b
  | VNum n => negb (Z.eqb n 0)
  | VStr s => negb (String.eqb s "")
  | _ => true
  end.

Module Compose.

(** Modelled from the spec: [isPlainObject], imported from
    [../util/objects].  A plain structural record is "a pure nested
    mapping carrying no live behavior"; arrays and instances of a stateful
    or opaque type are not. *)
Definition isPlainObject (v : value) : bool :=
  match v with
  | VRecord _ => true
  | _ => false
  end.

(** Modelled from the spec: [deepmerge] (an imported package) called with
    [isMergeableObject: isPlainObject].  "Recursive merge keyed by field
    name present in either tree.  Recurse only when the value at a key is a
    plain structural record in both trees.  Any other kind of value is
    replaced wholesale by the override if present, never merged
    field-by-field." *)
Fixpoint merge_value (d o : value) {struct d} : value :=
  match d, o with
  | VRecord df, VRecord ovs =>
      VRecord
        (map (fun kv : string * value =>
                let (k, dv) := kv in
                (k, match assoc k ovs with
                    | Some ov => merge_value dv ov
                    | None => dv
                    end)) df
         ++ List.filter (fun kv : string * value => negb (has_key (fst kv) df)) ovs)%list
  | _, _ => o
  end.

Definition ConfigTree := list (string * value).

Definition merge_fields (df ovs : ConfigTree) : ConfigTree :=
  (map (fun kv : string * value =>
          let (k, dv) := kv in
          (k, match assoc k ovs with
              | Some ov => merge_value dv ov
              | None => dv
              end)) df
   ++ List.filter (fun kv : string * value => negb (has_key (fst kv) df)) ovs)%list.

Definition compose (defaults overrides : ConfigTree) : ConfigTree :=
  merge_fields defaults overrides.

(** No key occurs twice. *)
Fixpoint distinct (ks : list string) : bool :=
  match ks with
  | [] => true
  | k :: rest => negb (existsb (String.eqb k) rest) && distinct rest
  end.

(** Objects have one binding per key, at every level. *)
Fixpoint wf_value (v : value) : bool :=
  match v with
  | VArray items => forallb wf_value items
  | VRecord fs | VOpaque _ fs =>
      distinct (map fst fs) && forallb (fun kv : string * value => wf_value kv.2) fs
  | _ => true
  end.

Definition wf_tree (t : ConfigTree) : bool := wf_value (VRecord t).

(** The call [deepmerge(defaultConf, opts, ...)] seen from the caller: the
    two argument trees stay bound to what they were, a third tree comes
    back. *)
Record call_frame := {
  arg_defaults : ConfigTree;
  arg_overrides : ConfigTree
}.

Definition compose_call (fr : call_frame) : call_frame * ConfigTree :=
  (fr, compose (arg_defaults fr) (arg_overrides fr)).

End Compose.

(** ** Lifecycle: [start] and [stop]

    The seven owned services are opaque: all the orchestrator sees of a
    [start()] or [stop()] call is the promise it returns, which is fulfilled,
    rejected with some value, or never settled.  What a service does may
    depend on everything that happened before the call. *)
Module Lifecycle.

(** The fields of [BeaconNode] that hold a [Service]. *)
Inductive service := Db | Network | Eth1 | Chain | OpPool | Sync | Rpc.

Inductive method := Start | Stop.

(** Values a lifecycle promise can be rejected with.  [Cause] is whatever a
    service throws; [StartupError] and [ShutdownError] are the wrappers of
    the documented error taxonomy. *)
Inductive failure :=
| Cause (msg : string)
| StartupError (s : service) (cause : failure)
| ShutdownError (failures : list (service * failure)).

(** The three fates of a promise. *)
Inductive settle (A : Type) :=
| Fulfilled (a : A)
| Rejected (e : failure)
| Pending.
Arguments Fulfilled {A} a.
Arguments Rejected {A} e.
Arguments Pending {A}.

Inductive event :=
| Logged (msg : string)
| Called (m : method) (s : service)
| Returned (m : method) (s : service)
| Threw (m : method) (s : service) (e : failure).

Definition trace := list event.

#[global] Instance service_eq_dec : EqDecision service.
Proof. solve_decision. Defined.

#[global] Instance method_eq_dec : EqDecision method.
Proof. solve_decision. Defined.

(** How the services react: the fate of [s.m()] when called after history
    [tr]. *)
Definition behaviour := method -> service -> trace -> settle unit.

(** An [async] function body: from the history so far to the history when
    the function settles (or hangs) and its fate. *)
Definition async (A : Type) : Type := trace -> trace * settle A.

Definition async_ret {A} (a : A) : async A := fun tr => (tr, Fulfilled a).

(** [await c; k]: [k] runs only once [c] is fulfilled; a rejection
    propagates, a promise that never settles suspends for ever. *)
Definition async_bind {A B} (c : async A) (k : A -> async B) : async B :=
  fun tr =>
    match c tr with
    | (tr', Fulfilled a) => k a tr'
    | (tr', Rejected e) => (tr', Rejected e)
    | (tr', Pending) => (tr', Pending)
    end.

Notation "'await' c ;; k" := (async_bind c (fun _ => k))
  (at level 100, c at next level, right associativity).

(** [c; k] for a call [c] that returns at once. *)
Notation "'call' c ;; k" := (async_bind c (fun _ => k))
  (at level 100, c at next level, right associativity).

Section Node.

Variable services : behaviour.

(** [this.<s>.<m>()] *)
Definition invoke (m : method) (s : service) : async unit :=
  fun tr =>
    match services m s tr with
    | Fulfilled _ => (tr ++ [Called m s; Returned m s], Fulfilled tt)
    | Rejected e => (tr ++ [Called m s; Threw m s e], Rejected e)
    | Pending => (tr ++ [Called m s], Pending)
    end.

(** [this.logger.info(msg)] *)
Definition logger_info (msg : string) : async unit :=
  fun tr => (tr ++ [Logged msg], Fulfilled tt).

Definition start : async unit :=
  call logger_info "Starting eth2 beacon node - LODESTAR!" ;;
  await invoke Start Db ;;
  await invoke Start Network ;;
  await invoke Start Eth1 ;;
  await invoke Start Chain ;;
  await invoke Start OpPool ;;
  await invoke Start Sync ;;
  await invoke Start Rpc ;;
  async_ret tt.

Definition stop : async unit :=
  await invoke Stop Rpc ;;
  await invoke Stop Sync ;;
  await invoke Stop OpPool ;;
  await invoke Stop Chain ;;
  await invoke Stop Eth1 ;;
  await invoke Stop Network ;;
  await invoke Stop Db ;;
  async_ret tt.

(** The same sequence of awaited calls over a list of services. *)
Fixpoint run_all (m : method) (ss : list service) : async unit :=
  match ss with
  | [] => async_ret tt
  | s :: rest => await invoke m s ;; run_all m rest
  end.

(** The history after every service of [ss] was called and returned. *)
Definition block (m : method) (ss : list service) : trace :=
  concat (map (fun s => [Called m s; Returned m s]) ss).

(** Every service of [ss], called in turn from history [tr], fulfils. *)
Fixpoint all_fulfil (m : method) (ss : list service) (tr : trace) : Prop :=
  match ss with
  | [] => True
  | s :: rest =>
      services m s tr = Fulfilled tt
      /\ all_fulfil m rest (tr ++ [Called m s; Returned m s])
  end.

End Node.

Definition start_message : string := "Starting eth2 beacon node - LODESTAR!".

Definition start_order : list service :=
  [Db; Network; Eth1; Chain; OpPool; Sync; Rpc].

Definition stop_order : list service :=
  [Rpc; Sync; OpPool; Chain; Eth1; Network; Db].

(** *** Observations on a history *)

(** The services whose [m] was invoked, in order of invocation. *)
Fixpoint calls_of (m : method) (tr : trace) : list service :=
  match tr with
  | [] => []
  | Called m' s :: rest =>
      if decide (m' = m) then s :: calls_of m rest else calls_of m rest
  | _ :: rest => calls_of m rest
  end.

(** The services whose [m] was invoked and returned normally. *)
Fixpoint completed_of (m : method) (tr : trace) : list service :=
  match tr with
  | [] => []
  | Returned m' s :: rest =>
      if decide (m' = m) then s :: completed_of m rest else completed_of m rest
  | _ :: rest => completed_of m rest
  end.

(** The failures observed, with the service that threw each. *)
Fixpoint failures_of (tr : trace) : list (service * failure) :=
  match tr with
  | [] => []
  | Threw _ s e :: rest => (s, e) :: failures_of rest
  | _ :: rest => failures_of rest
  end.

(** [sequential cur tr]: with [cur] the call in flight (if any), no call of
    [tr] begins while another is in flight, and every return or throw
    settles the call in flight. *)
Fixpoint sequential (cur : option (method * service)) (tr : trace) : bool :=
  match tr with
  | [] => true
  | Logged _ :: rest => sequential cur rest
  | Called m s :: rest =>
      match cur with
      | None => sequential (Some (m, s)) rest
      | Some _ => false
      end
  | Returned m s :: rest | Threw m s _ :: rest =>
      match cur with
      | Some c => bool_decide (c = (m, s)) && sequential None rest
      | None => false
      end
  end.

(** The three endings of a run of awaited calls. *)
Inductive ending (m : method) : trace -> settle unit -> Prop :=
| end_fulfilled : ending m [] (Fulfilled tt)
| end_rejected s e : ending m [Called m s; Threw m s e] (Rejected e)
| end_pending s : ending m [Called m s] Pending.

(** *** Concrete service behaviours *)

Definition all_ok : behaviour := fun _ _ _ => Fulfilled tt.

(** Everything works except [s.m()], which rejects with [e]. *)
Definition fails_at (m : method) (s : service) (e : failure) : behaviour :=
  fun m' s' _ =>
    if bool_decide (m' = m /\ s' = s) then Rejected e else Fulfilled tt.

(** Everything works except [s.m()], which never settles. *)
Definition hangs_at (m : method) (s : service) : behaviour :=
  fun m' s' _ =>
    if bool_decide (m' = m /\ s' = s) then Pending else Fulfilled tt.

End Lifecycle.

(** ** Construction of the node

    The constructor runs synchronously: it assigns fields of [this],
    allocates instances with [new], and builds a promise chain with [then]
    whose callbacks are only registered, never run, before it returns.  The
    classes it instantiates are opaque; an instance is recorded with the
    arguments its constructor received. *)
Module Construct.

Import Compose.

Inductive pstate :=
| PPending
| PFulfilled (v : value)
| PRejected (e : value).

Inductive hobj :=
| Instance (cls : string) (args : list value)
| Promise (st : pstate).

(** The two arrow functions handed to [then]. *)
Inductive callback :=
| InitializePeerInfo   (* (peerId) => initializePeerInfo(peerId, this.conf.network.multiaddrs) *)
| NewNodejsNode.       (* (peerInfo) => new NodejsNode({peerInfo}) *)

Record reaction := {
  source : nat;
  on_fulfilled : callback;
  derived : nat
}.

(** [heap]: the objects allocated so far, an address being a position;
    [this]: the fields of the node assigned so far; [reactions]: the
    callbacks registered on promises, none of which has run. *)
Record state := {
  heap : list hobj;
  this : list (string * value);
  reactions : list reaction
}.

Inductive exn :=
| TypeError (msg : string)
| ConfigurationError (msg : string).

Inductive outcome (A : Type) :=
| Done (a : A) (st : state)
| Thrown (e : exn).
Arguments Done {A} a st.
Arguments Thrown {A} e.

Definition M (A : Type) : Type := state -> outcome A.

#[global] Instance M_ret : MRet M := fun A a st => Done a st.

#[global] Instance M_bind : MBind M := fun A B k c st =>
  match c st with
  | Done a st' => k a st'
  | Thrown e => Thrown e
  end.

Definition throw {A} (e : exn) : M A := fun _ => Thrown e.

Definition lift {A} (r : exn + A) : M A :=
  match r with
  | inl e => throw e
  | inr a => mret a
  end.

(** *** Object operations *)

(** [{...fs, k: v}] on a field list: an existing binding keeps its place. *)
Fixpoint with_field (k : string) (v : value) (fs : list (string * value))
  : list (string * value) :=
  match fs with
  | [] => [(k, v)]
  | (k', v') :: rest =>
      if String.eqb k k' then (k, v) :: rest else (k', v') :: with_field k v rest
  end.

Definition indexed (items : list value) : list (string * value) :=
  imap (fun i x => (pretty i, x)) items.

Fixpoint chars (s : string) : list value :=
  match s with
  | EmptyString => []
  | String c rest => VStr (String c EmptyString) :: chars rest
  end.

(** The own properties of an instance of class [cls] recorded with [fs]:
    what a [Map] records are its entries, which are not properties. *)
Definition own_fields (cls : string) (fs : list (string * value))
  : list (string * value) :=
  if String.eqb cls "Map" then [] else fs.

(** The own enumerable properties copied by [{...v}]. *)
Definition spread (v : value) : list (string * value) :=
  match v with
  | VRecord fs => fs
  | VOpaque cls fs => own_fields cls fs
  | VArray items => indexed items
  | VStr s => indexed (chars s)
  | _ => []
  end.

(** [v.k] for a property name [k] of the configuration ([db], [api],
    [transports], ...): reading from [undefined] or [null] throws; values
    that are not objects, constructor functions and the instances allocated
    here have no such property. *)
Definition get_prop (v : value) (k : string) : exn + value :=
  match v with
  | VUndefined | VNull => inl (TypeError ("Cannot read property " ++ k))
  | VRecord fs => inr (default VUndefined (assoc k fs))
  | VOpaque cls fs => inr (default VUndefined (assoc k (own_fields cls fs)))
  | _ => inr VUndefined
  end.

(** [v[i]] for an index [i]. *)
Definition get_index (v : value) (i : nat) : exn + value :=
  match v with
  | VUndefined | VNull => inl (TypeError ("Cannot read property " ++ pretty i))
  | VArray items => inr (default VUndefined (items !! i))
  | VStr s => inr (default VUndefined (chars s !! i))
  | VRecord fs => inr (default VUndefined (assoc (pretty i) fs))
  | VOpaque cls fs => inr (default VUndefined (assoc (pretty i) (own_fields cls fs)))
  | _ => inr VUndefined
  end.

(** [m.get(key)]: a [Map] answers with its entry; [undefined], [null],
    primitives, arrays and records without a [get] have nothing to call.
    Objects carrying a [get] method of their own are not among the
    configurations modelled: they are treated like those without one. *)
Definition call_get (m : value) (key : string) : exn + value :=
  match m with
  | VUndefined | VNull => inl (TypeError "Cannot read property get")
  | VOpaque cls entries =>
      if String.eqb cls "Map" then inr (default VUndefined (assoc key entries))
      else inl (TypeError "get is not a function")
  | _ => inl (TypeError "get is not a function")
  end.

(** *** State operations *)

Definition alloc (o : hobj) : M value :=
  fun st =>
    Done (VRef (length (heap st)))
         {| heap := heap st ++ [o]; this := this st; reactions := reactions st |}.

(** [new cls(args)] *)
Definition new_ (cls : string) (args : list value) : M value :=
  alloc (Instance cls args).

(** [new F(args)] for a value [F] read from the configuration. *)
Definition construct (f : value) (args : list value) : M value :=
  match f with
  | VCtor cls => new_ cls args
  | _ => throw (TypeError "Api is not a constructor")
  end.

(** [this.k = v] *)
Definition set_this (k : string) (v : value) : M unit :=
  fun st =>
    Done tt {| heap := heap st; this := with_field k v (this st);
               reactions := reactions st |}.

(** [this.k] *)
Definition get_this (k : string) : M value :=
  fun st => Done (default VUndefined (assoc k (this st))) st.

(** [p.then(cb)]: a new pending promise; the callback is registered. *)
Definition then_ (p : value) (cb : callback) : M value :=
  match p with
  | VRef a =>
      fun st =>
        let d := length (heap st) in
        Done (VRef d)
             {| heap := heap st ++ [Promise PPending]; this := this st;
                reactions := reactions st
                               ++ [{| source := a; on_fulfilled := cb; derived := d |}] |}
  | _ => throw (TypeError "then is not a function")
  end.

(** [xs.map(f)] for an effectful [f]. *)
Fixpoint map_M {A B} (f : A -> M B) (xs : list A) : M (list B) :=
  match xs with
  | [] => mret []
  | x :: rest => y ← f x; ys ← map_M f rest; mret (y :: ys)
  end.

(** [v.map(f)]: only an array has [map]. *)
Definition array_map (v : value) (f : value -> M value) : M value :=
  match v with
  | VUndefined | VNull => throw (TypeError "Cannot read property map")
  | VArray items => ys ← map_M f items; mret (VArray ys)
  | _ => throw (TypeError "map is not a function")
  end.

(** The members of the [Module] enumeration the constructor names. *)
Inductive Module_ := DATABASE | NETWORK | ETH1 | CHAIN | SYNC.

Section BeaconNode.

(** [defaultConf] is the default export of [./options]; [Module] maps
    its members to the keys of the logging options; [createPeerId()]
    returns a promise in some state. *)
Variable defaultConf : ConfigTree.
Variable module_key : Module_ -> string.
Variable createPeerId_state : pstate.

Definition createPeerId : M value := alloc (Promise createPeerId_state).

(** [this.conf.section] *)
Definition conf_section (section : string) : M value :=
  conf ← get_this "conf";
  lift (get_prop conf section).

(** [{...this.conf.section, loggingLevel: this.conf.loggingOptions.get(md)}] *)
Definition with_logging (section : string) (md : Module_) : M value :=
  sec ← conf_section section;
  lo ← conf_section "loggingOptions";
  level ← lift (call_get lo (module_key md));
  mret (VRecord (with_field "loggingLevel" level (spread sec))).

Definition constructor (opts : ConfigTree) (config : value)
    (logger : option value) : M unit :=
  set_this "conf" (VRecord (compose defaultConf opts));;
  set_this "config" config;;
  lg ← match logger with
       | Some l => if truthy l then mret l else new_ "WinstonLogger" []
       | None => new_ "WinstonLogger" []
       end;
  set_this "logger" lg;;
  reps ← new_ "ReputationStore" [];
  set_this "reps" reps;;
  db_opts ← with_logging "db" DATABASE;
  controller ← new_ "LevelDbController" [db_opts; VRecord []];
  db ← new_ "BeaconDB" [VRecord [("config", config); ("controller", controller)]];
  set_this "db" db;;
  (* initialize for network type *)
  peerId ← createPeerId;
  peerInfo ← then_ peerId InitializePeerInfo;
  libp2p ← then_ peerInfo NewNodejsNode;
  rpc_opts ← with_logging "sync" NETWORK;
  this_db ← get_this "db";
  this_chain ← get_this "chain";
  this_network ← get_this "network";
  this_reps ← get_this "reps";
  rpc ← new_ "SyncRpc"
          [rpc_opts;
           VRecord [("config", config); ("db", this_db); ("chain", this_chain);
                    ("network", this_network); ("reps", this_reps)]];
  network_opts ← with_logging "network" NETWORK;
  network ← new_ "Libp2pNetwork"
              [network_opts; VRecord [("config", config); ("libp2p", libp2p)]];
  set_this "network" network;;
  eth1_opts ← with_logging "eth1" ETH1;
  eth1 ← new_ "EthersEth1Notifier" [eth1_opts; VRecord [("config", config)]];
  set_this "eth1" eth1;;
  opPool_opts ← conf_section "opPool";
  this_eth1 ← get_this "eth1";
  this_db ← get_this "db";
  opPool ← new_ "OpPool" [opPool_opts; VRecord [("eth1", this_eth1); ("db", this_db)]];
  set_this "opPool" opPool;;
  chain_opts ← with_logging "chain" CHAIN;
  this_db ← get_this "db";
  this_eth1 ← get_this "eth1";
  this_opPool ← get_this "opPool";
  chain ← new_ "BeaconChain"
            [chain_opts;
             VRecord [("config", config); ("db", this_db); ("eth1", this_eth1);
                      ("opPool", this_opPool)]];
  set_this "chain" chain;;
  sync_opts ← with_logging "sync" SYNC;
  this_db ← get_this "db";
  this_eth1 ← get_this "eth1";
  this_chain ← get_this "chain";
  this_opPool ← get_this "opPool";
  this_network ← get_this "network";
  this_reps ← get_this "reps";
  sync ← new_ "Sync"
           [sync_opts;
            VRecord [("config", config); ("db", this_db); ("eth1", this_eth1);
                     ("chain", this_chain); ("opPool", this_opPool);
                     ("network", this_network); ("reps", this_reps); ("rpc", rpc)]];
  set_this "sync" sync;;
  (* TODO: needs to be moved to Rpc class and initialized from opts *)
  api ← conf_section "api";
  transports ← lift (get_prop api "transports");
  transport0 ← lift (get_index transports 0);
  ws ← new_ "WSServer" [transport0];
  apis_conf ← lift (get_prop api "apis");
  apis ← array_map apis_conf (fun Api =>
            this_chain ← get_this "chain";
            this_db ← get_this "db";
            this_eth1 ← get_this "eth1";
            construct Api
              [VRecord [];
               VRecord [("config", config); ("chain", this_chain); ("db", this_db);
                        ("eth1", this_eth1)]]);
  rpc_server ← new_ "JSONRPC" [api; VRecord [("transports", VArray [ws]); ("apis", apis)]];
  set_this "rpc" rpc_server.

End BeaconNode.

(** The state in which a constructor starts: a fresh [this], nothing
    allocated. *)
Definition fresh : state := {| heap := []; this := []; reactions := [] |}.

(** The arrow function mapped over [api.apis], by name. *)
Definition new_api (config : value) (Api : value) : M value :=
  this_chain ← get_this "chain";
  this_db ← get_this "db";
  this_eth1 ← get_this "eth1";
  construct Api
    [VRecord [];
     VRecord [("config", config); ("chain", this_chain); ("db", this_db);
              ("eth1", this_eth1)]].

(** *** Reading the result *)

(** The field [k] of the node. *)
Definition field (st : state) (k : string) : value :=
  default VUndefined (assoc k (this st)).

(** The [i]-th constructor argument of the instance [v] refers to. *)
Definition ctor_arg (st : state) (v : value) (i : nat) : value :=
  match v with
  | VRef a =>
      match heap st !! a with
      | Some (Instance _ args) => default VUndefined (args !! i)
      | _ => VUndefined
      end
  | _ => VUndefined
  end.

(** The dependency named [k] injected into the instance [v] refers to (the
    second constructor argument is the record of modules). *)
Definition injected (st : state) (v : value) (k : string) : value :=
  match ctor_arg st v 1 with
  | VRecord mods => default VUndefined (assoc k mods)
  | _ => VUndefined
  end.

(** The class of the instance [v] refers to. *)
Definition class_of (st : state) (v : value) : option string :=
  match v with
  | VRef a =>
      match heap st !! a with
      | Some (Instance cls _) => Some cls
      | _ => None
      end
  | _ => None
  end.

(** The state of the promise [v] refers to. *)
Definition promise_state (st : state) (v : value) : option pstate :=
  match v with
  | VRef a =>
      match heap st !! a with
      | Some (Promise ps) => Some ps
      | _ => None
      end
  | _ => None
  end.

(** How many instances of class [cls] have been allocated. *)
Definition count_instances (st : state) (cls : string) : nat :=
  length (List.filter (fun o => match o with
                                | Instance c _ => String.eqb c cls
                                | Promise _ => false
                                end) (heap st)).

(** The arguments every API class is constructed with. *)
Definition api_args (config chain db eth1 : value) : list value :=
  [VRecord [];
   VRecord [("config", config); ("chain", chain); ("db", db); ("eth1", eth1)]].

(** *** Specifications *)

Definition is_type_error (e : exn) : Prop := exists msg, e = TypeError msg.

(** [wp c Q st]: run from [st], [c] either completes in a state satisfying
    [Q] or throws a [TypeError]. *)
Definition wp {A} (c : M A) (Q : A -> state -> Prop) (st : state) : Prop :=
  match c st with
  | Done a st' => Q a st'
  | Thrown e => is_type_error e
  end.

End Construct.

(** ** Sample inputs *)
Module Samples.

Import Compose Construct.

Definition module_key (md : Module_) : string :=
  match md with
  | DATABASE => "database"
  | NETWORK => "network"
  | ETH1 => "eth1"
  | CHAIN => "chain"
  | SYNC => "sync"
  end.

Definition loggingOptions : value :=
  VOpaque "Map" [("database", VNum 2); ("network", VNum 2); ("eth1", VNum 2);
                 ("chain", VNum 3); ("sync", VNum 2)].

Definition defaultConf : ConfigTree :=
  [("db", VRecord [("name", VStr "./.tmp/lodestar-db")]);
   ("network", VRecord [("maxPeers", VNum 25);
                        ("multiaddrs", VArray [VStr "/ip4/127.0.0.1/tcp/30606"])]);
   ("eth1", VRecord [("provider", VOpaque "JsonRpcProvider" [("url", VStr "http://localhost:8545")]);
                     ("depositContract", VRecord [("deployedAt", VNum 0)])]);
   ("chain", VRecord [("name", VStr "mainnet")]);
   ("opPool", VRecord []);
   ("sync", VRecord [("blockPerChunk", VNum 20)]);
   ("api", VRecord [("transports", VArray [VRecord [("host", VStr "127.0.0.1"); ("port", VNum 9545)]]);
                    ("apis", VArray [VCtor "BeaconApi"; VCtor "ValidatorApi"])]);
   ("loggingOptions", loggingOptions)].

Definition config : value := VOpaque "BeaconConfig" [("params", VRecord [])].

(** Overrides that leave the API section without transports. *)
Definition opts_no_transports : ConfigTree :=
  [("api", VRecord [("transports", VArray [])])].

(** Overrides whose API section has no usable [transports] at all. *)
Definition opts_transports_undefined : ConfigTree :=
  [("api", VRecord [("transports", VUndefined)])].

(** Overrides whose [apis] is not a list. *)
Definition opts_apis_not_a_list : ConfigTree :=
  [("api", VRecord [("apis", VStr "beacon")])].

(** Overrides whose [apis] holds something that is not a constructor. *)
Definition opts_apis_not_constructors : ConfigTree :=
  [("api", VRecord [("apis", VArray [VCtor "BeaconApi"; VStr "validator"])])].

(** Overrides that put a plain record where the default is a [Map]. *)
Definition opts_plain_logging : ConfigTree :=
  [("loggingOptions", VRecord [("database", VNum 5)])].

(** Overrides of two sections, one of them holding a class instance. *)
Definition opts_network_eth1 : ConfigTree :=
  [("network", VRecord [("maxPeers", VNum 50)]);
   ("eth1", VRecord [("provider",
                      VOpaque "JsonRpcProvider" [("url", VStr "http://10.0.0.1:8545")])])].

Definition build (opts : ConfigTree) : outcome unit :=
  constructor defaultConf module_key PPending opts config None fresh.

(** The same with a [createPeerId()] whose promise is already fulfilled. *)
Definition build_with_peer_id (opts : ConfigTree) : outcome unit :=
  constructor defaultConf module_key (PFulfilled (VStr "QmPeer")) opts config None fresh.

(** The state a construction ends in ([fresh] if it throws). *)
Definition built (r : outcome unit) : state :=
  match r with
  | Done _ st => st
  | Thrown _ => fresh
  end.

(** The node built from the defaults alone. *)
Definition node : state := built (build []).

(** The same when the peer identity is available at once. *)
Definition node_with_peer_id : state := built (build_with_peer_id []).

(** The node built without any transport configured. *)
Definition node_no_transports : state := built (build opts_no_transports).

End Samples.

(** ** [start] with its logger

    [start()] begins with [this.logger.info(...)], a call on an object the
    caller of the constructor may have supplied: it returns, throws, or
    never returns, like any call.  [Lifecycle.start] is [start] for a logger
    whose [info] returns. *)
Module Orchestrator.

Import Lifecycle.

(** How the logger reacts: the fate of [this.logger.info(msg)] when called
    after history [tr]. *)
Definition logging := string -> trace -> settle unit.

(** [this.logger.info(msg)]: the line is in the history once the call has
    returned; an exception thrown inside an [async] function rejects its
    promise. *)
Definition logger_info (logger : logging) (msg : string) : async unit :=
  fun tr =>
    match logger msg tr with
    | Fulfilled _ => (tr ++ [Logged msg], Fulfilled tt)
    | Rejected e => (tr, Rejected e)
    | Pending => (tr, Pending)
    end.

Section Node.

Variable logger : logging.
Variable services : behaviour.

Definition start : async unit :=
  call logger_info logger "Starting eth2 beacon node - LODESTAR!" ;;
  await invoke services Start Db ;;
  await invoke services Start Network ;;
  await invoke services Start Eth1 ;;
  await invoke services Start Chain ;;
  await invoke services Start OpPool ;;
  await invoke services Start Sync ;;
  await invoke services Start Rpc ;;
  async_ret tt.

End Node.

(** A logger whose [info] returns. *)
Definition quiet : logging := fun _ _ => Fulfilled tt.

(** A logger whose [info] throws [e]. *)
Definition throwing (e : failure) : logging := fun _ _ => Rejected e.

End Orchestrator.

(** ** Further vocabulary

    Observations and conditions used to state what the paths, the lifecycle
    and the constructor do beyond the properties above. *)
Module Vocabulary.

Import Compose Construct.

(** An override as [||] sees it: the empty string counts as absent. *)
Definition blank_to_absent (o : option string) : option string :=
  match o with
  | Some s => if String.eqb s "" then None else Some s
  | None => None
  end.

(** No line was logged in this history. *)
Definition no_logs (tr : Lifecycle.trace) : bool :=
  forallb (fun ev => match ev with
                     | Lifecycle.Logged _ => false
                     | _ => true
                     end) tr.

(** A value on which [get] is certainly not callable: [undefined], [null],
    primitives, arrays, and plain records without a [get] property. *)
Definition has_no_get (v : value) : bool :=
  match v with
  | VUndefined | VNull | VBool _ | VNum _ | VStr _ | VArray _ => true
  | VRecord fs => negb (has_key "get" fs)
  | _ => false
  end.

(** [wpe c Q E st]: run from [st], [c] either completes in a state
    satisfying [Q] or throws an exception satisfying [E]. *)
Definition wpe {A} (c : M A) (Q : A -> state -> Prop) (E : exn -> Prop)
    (st : state) : Prop :=
  match c st with
  | Done a st' => Q a st'
  | Thrown e => E e
  end.

(** The property [k] of the record passed as [i]-th constructor argument
    to the instance [v] refers to. *)
Definition arg_field (st : state) (v : value) (i : nat) (k : string) : value :=
  match ctor_arg st v i with
  | VRecord fs => default VUndefined (assoc k fs)
  | _ => VUndefined
  end.

(** The names of the fields assigned so far, in order of first
    assignment. *)
Definition field_names (st : state) : list string := map fst (this st).

(** The node built from the sample defaults when [null] is given for the
    logger. *)
Definition node_null_logger : state :=
  Samples.built
    (constructor Samples.defaultConf Samples.module_key PPending []
                 Samples.config (Some VNull) fresh).

End Vocabulary.

(** * Properties *)

(** ** Paths *)
Module PathsFacts.

Import Paths.

Section WithHelpers.

Variable globalRootDir : Options -> string.
Variable joinIfRelative : string -> string -> string.

(** Whatever the helpers are, [peerStoreDir] is computed from the [dbDir]
    option and the [peerStoreDir] option is never read. *)
Lemma peerStoreDir_reads_dbDir (options : Options) :
  peerStoreDir (getBeaconPaths globalRootDir joinIfRelative options)
  = joinIfRelative (globalRootDir options)
                   (or_else (opt_dbDir options) "peerstore").
Proof. reflexivity. Qed.

Lemma dbDir_reads_dbDir (options : Options) :
  dbDir (getBeaconPaths globalRootDir joinIfRelative options)
  = joinIfRelative (globalRootDir options)
                   (or_else (opt_dbDir options) "chain-db").
Proof. reflexivity. Qed.

(** The sibling fields read their own option. *)
Lemma configFile_reads_configFile (options : Options) :
  configFile (getBeaconPaths globalRootDir joinIfRelative options)
  = joinIfRelative (globalRootDir options)
                   (or_else (opt_configFile options) "beacon.config.json").
Proof. reflexivity. Qed.

(** Without a [dbDir] override the peer store does get its default. *)
Lemma peerStoreDir_default (options : Options) :
  opt_dbDir options = None ->
  peerStoreDir (getBeaconPaths globalRootDir joinIfRelative options)
  = joinIfRelative (globalRootDir options) "peerstore".
Proof. intros H. rewrite peerStoreDir_reads_dbDir, H. reflexivity. Qed.

End WithHelpers.

Example resolve_defaults :
  resolve (only_root "/data/node1")
  = {| beaconDir := "/data/node1";
       peerStoreDir := "/data/node1/peerstore";
       dbDir := "/data/node1/chain-db";
       configFile := "/data/node1/beacon.config.json";
       peerIdFile := "/data/node1/peer-id.json";
       enrFile := "/data/node1/enr.json";
       logFile := None |}.
Proof. reflexivity. Qed.

(** C1 (the code departs from it).  The resolved [peerStoreDir] should be
    the [peerStoreDir] override when supplied and the base joined with
    [peerstore] otherwise, and never come from the [dbDir] override.  The
    code reads [options.dbDir] on that line: with only
    [dbDir = "/custom/storage"] the peer store resolves to
    ["/custom/storage"], the very directory of the database, and with only
    [peerStoreDir = "/custom/peers"] the override is ignored. *)
Theorem peerStoreDir_inherits_dbDir_override :
  let with_db :=
    {| rootDir := "/data/node1"; opt_beaconDir := None; opt_peerStoreDir := None;
       opt_dbDir := Some "/custom/storage"; opt_configFile := None;
       opt_peerIdFile := None; opt_enrFile := None; opt_logFile := None |} in
  let with_peers :=
    {| rootDir := "/data/node1"; opt_beaconDir := None;
       opt_peerStoreDir := Some "/custom/peers";
       opt_dbDir := None; opt_configFile := None;
       opt_peerIdFile := None; opt_enrFile := None; opt_logFile := None |} in
  (peerStoreDir (resolve with_db) = "/custom/storage"
   /\ dbDir (resolve with_db) = "/custom/storage"
   /\ expected_peerStoreDir globalRootDir_spec joinIfRelative_spec with_db
      = "/data/node1/peerstore")
  /\ (peerStoreDir (resolve with_peers) = "/data/node1/peerstore"
      /\ expected_peerStoreDir globalRootDir_spec joinIfRelative_spec with_peers
         = "/custom/peers").
Proof. repeat split. Qed.

End PathsFacts.

(** ** Lifecycle *)
Module LifecycleFacts.

Import Lifecycle.

Lemma calls_of_app m (t1 t2 : trace) :
  calls_of m (t1 ++ t2) = calls_of m t1 ++ calls_of m t2.
Proof.
  induction t1 as [|ev t1 IH]; [reflexivity|].
  destruct ev; simpl; try apply IH.
  case_decide; simpl; [f_equal|]; apply IH.
Qed.

Lemma completed_of_app m (t1 t2 : trace) :
  completed_of m (t1 ++ t2) = completed_of m t1 ++ completed_of m t2.
Proof.
  induction t1 as [|ev t1 IH]; [reflexivity|].
  destruct ev; simpl; try apply IH.
  case_decide; simpl; [f_equal|]; apply IH.
Qed.

Lemma failures_of_app (t1 t2 : trace) :
  failures_of (t1 ++ t2) = failures_of t1 ++ failures_of t2.
Proof.
  induction t1 as [|ev t1 IH]; [reflexivity|].
  destruct ev; simpl; try apply IH. f_equal. apply IH.
Qed.

Lemma block_cons m s ss :
  block m (s :: ss) = Called m s :: Returned m s :: block m ss.
Proof. reflexivity. Qed.

Lemma calls_of_block m ss : calls_of m (block m ss) = ss.
Proof.
  induction ss as [|s ss IH]; [reflexivity|].
  rewrite block_cons. simpl. rewrite decide_True by reflexivity.
  f_equal. apply IH.
Qed.

Lemma calls_of_block_other m m' ss : m' <> m -> calls_of m (block m' ss) = [].
Proof.
  intros Hne. induction ss as [|s ss IH]; [reflexivity|].
  rewrite block_cons. simpl. rewrite decide_False by assumption. apply IH.
Qed.

Lemma completed_of_block m ss : completed_of m (block m ss) = ss.
Proof.
  induction ss as [|s ss IH]; [reflexivity|].
  rewrite block_cons. simpl. rewrite decide_True by reflexivity.
  f_equal. apply IH.
Qed.

Lemma failures_of_block m ss : failures_of (block m ss) = [].
Proof. induction ss as [|s ss IH]; [reflexivity|]. apply IH. Qed.

Lemma sequential_block m ss rest :
  sequential None (block m ss ++ rest) = sequential None rest.
Proof.
  induction ss as [|s ss IH]; [reflexivity|].
  rewrite block_cons. simpl. rewrite bool_decide_eq_true_2 by reflexivity.
  apply IH.
Qed.

(** When a call begins in a history made of completed calls and one
    ending, every call begun before it has returned. *)
Lemma block_split m pre tail r p s q :
  ending m tail r ->
  block m pre ++ tail = p ++ Called m s :: q ->
  completed_of m p = calls_of m p.
Proof.
  intros Hend. revert p.
  induction pre as [|x pre IH]; intros p Heq.
  - simpl in Heq.
    destruct Hend; destruct p as [|a [|b [|c p]]]; simplify_eq/=; reflexivity.
  - rewrite block_cons in Heq.
    destruct p as [|a [|b p]]; simplify_eq/=; [reflexivity|].
    rewrite !decide_True by reflexivity. f_equal. by apply IH.
Qed.

Section Node.

Variable services : behaviour.

Lemma invoke_fulfilled m s tr :
  services m s tr = Fulfilled tt ->
  invoke services m s tr = (tr ++ [Called m s; Returned m s], Fulfilled tt).
Proof. intros H. unfold invoke. rewrite H. reflexivity. Qed.

Lemma invoke_rejected m s tr e :
  services m s tr = Rejected e ->
  invoke services m s tr = (tr ++ [Called m s; Threw m s e], Rejected e).
Proof. intros H. unfold invoke. rewrite H. reflexivity. Qed.

Lemma invoke_pending m s tr :
  services m s tr = Pending ->
  invoke services m s tr = (tr ++ [Called m s], Pending).
Proof. intros H. unfold invoke. rewrite H. reflexivity. Qed.

Lemma run_all_cons m s ss tr :
  run_all services m (s :: ss) tr
  = match invoke services m s tr with
    | (tr', Fulfilled _) => run_all services m ss tr'
    | (tr', Rejected e) => (tr', Rejected e)
    | (tr', Pending) => (tr', Pending)
    end.
Proof. reflexivity. Qed.

Lemma all_fulfil_app m pre post tr :
  all_fulfil services m (pre ++ post) tr
  <-> all_fulfil services m pre tr
      /\ all_fulfil services m post (tr ++ block m pre).
Proof.
  revert tr. induction pre as [|s pre IH]; intros tr; simpl.
  - rewrite app_nil_r. tauto.
  - rewrite IH, block_cons.
    replace ((tr ++ [Called m s; Returned m s]) ++ block m pre)
      with (tr ++ Called m s :: Returned m s :: block m pre)
      by (rewrite <- app_assoc; reflexivity).
    tauto.
Qed.

(** Every call fulfils: the run goes through the whole list. *)
Lemma run_all_fulfil m ss tr :
  all_fulfil services m ss tr ->
  run_all services m ss tr = (tr ++ block m ss, Fulfilled tt).
Proof.
  revert tr. induction ss as [|s ss IH]; intros tr H.
  - simpl. unfold async_ret. rewrite app_nil_r. reflexivity.
  - destruct H as [Hs Hrest].
    rewrite run_all_cons, (invoke_fulfilled _ _ _ Hs), (IH _ Hrest).
    rewrite block_cons, <- app_assoc. reflexivity.
Qed.

(** The first rejection ends the run with the rejection value itself. *)
Lemma run_all_reject m pre s post e tr :
  all_fulfil services m pre tr ->
  services m s (tr ++ block m pre) = Rejected e ->
  run_all services m (pre ++ s :: post) tr
  = (tr ++ block m pre ++ [Called m s; Threw m s e], Rejected e).
Proof.
  revert tr. induction pre as [|x pre IH]; intros tr Hpre Hs.
  - change (block m []) with (@nil event) in *.
    rewrite app_nil_r in Hs. rewrite app_nil_l.
    rewrite run_all_cons, (invoke_rejected _ _ _ _ Hs). reflexivity.
  - destruct Hpre as [Hx Hpre]. rewrite <- app_comm_cons.
    rewrite run_all_cons, (invoke_fulfilled _ _ _ Hx).
    rewrite (IH (tr ++ [Called m x; Returned m x])); [|assumption|].
    + rewrite block_cons, <- app_assoc. reflexivity.
    + rewrite <- Hs, block_cons, <- app_assoc. reflexivity.
Qed.

(** A call that never settles suspends the run for ever. *)
Lemma run_all_hang m pre s post tr :
  all_fulfil services m pre tr ->
  services m s (tr ++ block m pre) = Pending ->
  run_all services m (pre ++ s :: post) tr
  = (tr ++ block m pre ++ [Called m s], Pending).
Proof.
  revert tr. induction pre as [|x pre IH]; intros tr Hpre Hs.
  - change (block m []) with (@nil event) in *.
    rewrite app_nil_r in Hs. rewrite app_nil_l.
    rewrite run_all_cons, (invoke_pending _ _ _ Hs). reflexivity.
  - destruct Hpre as [Hx Hpre]. rewrite <- app_comm_cons.
    rewrite run_all_cons, (invoke_fulfilled _ _ _ Hx).
    rewrite (IH (tr ++ [Called m x; Returned m x])); [|assumption|].
    + rewrite block_cons, <- app_assoc. reflexivity.
    + rewrite <- Hs, block_cons, <- app_assoc. reflexivity.
Qed.

(** Every run is a prefix of completed calls followed by one ending. *)
Lemma run_all_shape m ss tr :
  exists pre tail r,
    run_all services m ss tr = (tr ++ block m pre ++ tail, r)
    /\ ending m tail r
    /\ pre `prefix_of` ss
    /\ all_fulfil services m pre tr
    /\ (r = Fulfilled tt -> pre = ss)
    /\ calls_of m (block m pre ++ tail) `prefix_of` ss.
Proof.
  revert tr. induction ss as [|s ss IH]; intros tr.
  - exists [], [], (Fulfilled tt). simpl. unfold async_ret.
    rewrite app_nil_r. repeat split; try constructor; reflexivity.
  - destruct (services m s tr) as [[]|e|] eqn:Hs.
    + destruct (IH (tr ++ [Called m s; Returned m s]))
        as (pre & tail & r & Hrun & Hend & Hpre & Hall & Hful & Hcalls).
      exists (s :: pre), tail, r.
      rewrite run_all_cons, (invoke_fulfilled _ _ _ Hs), Hrun.
      rewrite block_cons, <- !app_assoc. simpl.
      rewrite decide_True by reflexivity.
      repeat split; try assumption.
      * by apply prefix_cons.
      * intros Hr. f_equal. by apply Hful.
      * by apply prefix_cons.
    + exists [], [Called m s; Threw m s e], (Rejected e).
      rewrite run_all_cons, (invoke_rejected _ _ _ _ Hs). simpl.
      rewrite decide_True by reflexivity.
      repeat split; try constructor; try discriminate.
      * apply prefix_nil.
      * by apply prefix_cons, prefix_nil.
    + exists [], [Called m s], Pending.
      rewrite run_all_cons, (invoke_pending _ _ _ Hs). simpl.
      rewrite decide_True by reflexivity.
      repeat split; try constructor; try discriminate.
      * apply prefix_nil.
      * by apply prefix_cons, prefix_nil.
Qed.

Lemma start_run_all tr :
  start services tr
  = run_all services Start start_order (tr ++ [Logged start_message]).
Proof. reflexivity. Qed.

Lemma stop_run_all tr :
  stop services tr = run_all services Stop stop_order tr.
Proof. reflexivity. Qed.

End Node.

(** A [start] that never settles suspends [start()] where it is: the
    services after it are never called. *)
Example start_hangs_with_network :
  start (hangs_at Start Network) []
  = ([Logged start_message; Called Start Db; Returned Start Db; Called Start Network],
     Pending).
Proof. reflexivity. Qed.

Lemma stop_order_rev : stop_order = rev start_order.
Proof. reflexivity. Qed.

Lemma start_order_NoDup : NoDup start_order.
Proof.
  repeat (apply NoDup_cons; split;
          [rewrite ?elem_of_cons, elem_of_nil; intuition discriminate|]).
  apply NoDup_nil_2.
Qed.

Lemma stop_order_NoDup : NoDup stop_order.
Proof.
  repeat (apply NoDup_cons; split;
          [rewrite ?elem_of_cons, elem_of_nil; intuition discriminate|]).
  apply NoDup_nil_2.
Qed.

Lemma sequential_ending m tail r :
  ending m tail r -> sequential None tail = true.
Proof.
  intros []; simpl; [reflexivity| |reflexivity].
  rewrite bool_decide_eq_true_2 by reflexivity. reflexivity.
Qed.

(** In a list without repetition, what follows a position is not among
    what precedes it. *)
Lemma not_called_after (ss pre post : list service) s x :
  NoDup ss -> ss = pre ++ s :: post -> x ∈ post -> x ∉ pre ++ [s].
Proof.
  intros Hnd -> Hx Hin.
  rewrite (assoc_L (++) pre [s] post : pre ++ s :: post = (pre ++ [s]) ++ post) in Hnd.
  apply NoDup_app in Hnd as (_ & Hdisj & _).
  exact (Hdisj _ Hin Hx).
Qed.

Lemma NoDup_prefix (l1 l2 : list service) :
  l1 `prefix_of` l2 -> NoDup l2 -> NoDup l1.
Proof. intros [k ->] Hnd. by apply NoDup_app in Hnd as (? & _ & _). Qed.

Lemma calls_of_ending_other m m' tail r :
  m' <> m -> ending m' tail r -> calls_of m tail = [].
Proof.
  intros Hne []; simpl; try reflexivity;
    rewrite decide_False by assumption; reflexivity.
Qed.

(** C2 (as amended).  If the services before [s] in the start order fulfil
    their [start] and [s] rejects with [e], then [start()] is rejected with
    [e] itself (the value the service threw, not wrapped and not naming the
    service), exactly the services before [s] have started, [s] was the
    last one called and no later service is called. *)
Theorem start_stops_at_first_failure (services : behaviour) (tr : trace)
    (pre : list service) (s : service) (post : list service) (e : failure) :
  start_order = pre ++ s :: post ->
  all_fulfil services Start pre (tr ++ [Logged start_message]) ->
  services Start s ((tr ++ [Logged start_message]) ++ block Start pre) = Rejected e ->
  exists delta,
    start services tr = (tr ++ Logged start_message :: delta, Rejected e)
    /\ completed_of Start delta = pre
    /\ calls_of Start delta = pre ++ [s]
    /\ failures_of delta = [(s, e)]
    /\ (forall x, x ∈ post -> x ∉ calls_of Start delta).
Proof.
  intros Hord Hpre Hs.
  exists (block Start pre ++ [Called Start s; Threw Start s e]).
  rewrite start_run_all, Hord, (run_all_reject _ _ _ _ _ _ _ Hpre Hs).
  rewrite calls_of_app, completed_of_app, failures_of_app.
  rewrite calls_of_block, completed_of_block, failures_of_block. simpl.
  rewrite ?decide_True by reflexivity. rewrite app_nil_r.
  split; [by rewrite <- app_assoc|].
  repeat split.
  intros x Hx. by apply (not_called_after start_order pre post s x start_order_NoDup).
Qed.

(** The chain refusing to start: storage, network and chain observer are
    running, nothing after the chain was called. *)
Lemma start_stops_at_first_failure_witness :
  start_order = [Db; Network; Eth1] ++ Chain :: [OpPool; Sync; Rpc]
  /\ exists delta,
       start (fails_at Start Chain (Cause "chain: database not open")) []
       = ([] ++ Logged start_message :: delta,
          Rejected (Cause "chain: database not open"))
       /\ completed_of Start delta = [Db; Network; Eth1]
       /\ calls_of Start delta = [Db; Network; Eth1] ++ [Chain]
       /\ failures_of delta = [(Chain, Cause "chain: database not open")]
       /\ (forall x, x ∈ [OpPool; Sync; Rpc] -> x ∉ calls_of Start delta).
Proof.
  split; [reflexivity|].
  apply (start_stops_at_first_failure
           (fails_at Start Chain (Cause "chain: database not open")) []
           [Db; Network; Eth1] Chain [OpPool; Sync; Rpc]).
  - reflexivity.
  - simpl. repeat split.
  - reflexivity.
Defined.

(** C2 (as stated) fails: when the storage service rejects with a cause,
    [start()] is rejected with that bare cause, not with a [StartupError]
    naming storage; and the rejection is the same value when it is the
    network that fails with that cause, so it does not identify the
    failing service. *)
Lemma start_failure_is_not_wrapped :
  fails_at Start Db (Cause "disk full") Start Db [Logged start_message]
  = Rejected (Cause "disk full")
  /\ (start (fails_at Start Db (Cause "disk full")) []).2
     = Rejected (Cause "disk full")
  /\ (start (fails_at Start Db (Cause "disk full")) []).2
     <> Rejected (StartupError Db (Cause "disk full"))
  /\ (start (fails_at Start Network (Cause "disk full")) []).2
     = (start (fails_at Start Db (Cause "disk full")) []).2.
Proof. repeat split. discriminate. Qed.

(** C3 (as amended).  [stop()] attempts the services' [stop] in reverse
    order up to the first failure only: if every call fulfils, all seven
    are attempted and [stop()] completes with no value; if the services
    before [s] fulfil and [s] rejects with [e], [stop()] is rejected with
    [e] itself and the services after [s] are not attempted. *)
Theorem stop_halts_at_first_failure (services : behaviour) (tr : trace) :
  (all_fulfil services Stop stop_order tr ->
   stop services tr = (tr ++ block Stop stop_order, Fulfilled tt)
   /\ calls_of Stop (block Stop stop_order)
      = [Rpc; Sync; OpPool; Chain; Eth1; Network; Db])
  /\ (forall pre s post e,
        stop_order = pre ++ s :: post ->
        all_fulfil services Stop pre tr ->
        services Stop s (tr ++ block Stop pre) = Rejected e ->
        exists delta,
          stop services tr = (tr ++ delta, Rejected e)
          /\ calls_of Stop delta = pre ++ [s]
          /\ failures_of delta = [(s, e)]
          /\ (forall x, x ∈ post -> x ∉ calls_of Stop delta)).
Proof.
  split.
  - intros Hall. rewrite stop_run_all, (run_all_fulfil _ _ _ _ Hall).
    by rewrite calls_of_block.
  - intros pre s post e Hord Hpre Hs.
    exists (block Stop pre ++ [Called Stop s; Threw Stop s e]).
    rewrite stop_run_all, Hord, (run_all_reject _ _ _ _ _ _ _ Hpre Hs).
    rewrite calls_of_app, failures_of_app, calls_of_block, failures_of_block.
    simpl. rewrite ?decide_True by reflexivity.
    repeat split.
    intros x Hx.
    by apply (not_called_after stop_order pre post s x stop_order_NoDup).
Qed.

(** Both cases: every service stops; the chain refuses to stop. *)
Lemma stop_halts_at_first_failure_witness :
  (all_fulfil all_ok Stop stop_order []
   /\ stop all_ok [] = ([] ++ block Stop stop_order, Fulfilled tt))
  /\ (stop_order = [Rpc; Sync; OpPool] ++ Chain :: [Eth1; Network; Db]
      /\ exists delta,
           stop (fails_at Stop Chain (Cause "chain busy")) []
           = ([] ++ delta, Rejected (Cause "chain busy"))
           /\ calls_of Stop delta = [Rpc; Sync; OpPool] ++ [Chain]
           /\ failures_of delta = [(Chain, Cause "chain busy")]
           /\ (forall x, x ∈ [Eth1; Network; Db] -> x ∉ calls_of Stop delta)).
Proof.
  split.
  - assert (H : all_fulfil all_ok Stop stop_order []) by (simpl; repeat split).
    split; [exact H|].
    exact (proj1 (proj1 (stop_halts_at_first_failure all_ok []) H)).
  - split; [reflexivity|].
    apply (proj2 (stop_halts_at_first_failure
                    (fails_at Stop Chain (Cause "chain busy")) [])
                 [Rpc; Sync; OpPool] Chain [Eth1; Network; Db]).
    + reflexivity.
    + simpl. repeat split.
    + reflexivity.
Defined.

(** C3 (as stated) fails: when the synchronization engine's [stop] rejects,
    only the API server and the synchronization engine have been asked to
    stop; the operation pool, chain, chain observer, network and storage
    are never asked, and the rejection is the bare cause, not a
    [ShutdownError]. *)
Lemma stop_aborts_on_failure :
  calls_of Stop (stop (fails_at Stop Sync (Cause "sync stuck")) []).1 = [Rpc; Sync]
  /\ Db ∉ calls_of Stop (stop (fails_at Stop Sync (Cause "sync stuck")) []).1
  /\ Network ∉ calls_of Stop (stop (fails_at Stop Sync (Cause "sync stuck")) []).1
  /\ (stop (fails_at Stop Sync (Cause "sync stuck")) []).2
     = Rejected (Cause "sync stuck")
  /\ (forall fs, (stop (fails_at Stop Sync (Cause "sync stuck")) []).2
                 <> Rejected (ShutdownError fs)).
Proof.
  repeat split.
  - change (Db ∉ [Rpc; Sync]). rewrite !elem_of_cons, elem_of_nil. intuition discriminate.
  - change (Network ∉ [Rpc; Sync]). rewrite !elem_of_cons, elem_of_nil. intuition discriminate.
  - discriminate.
Qed.

(** A fulfilled [start()] has called and completed all seven services. *)
Lemma start_fulfilled_trace (services : behaviour) (tr0 tr : trace) :
  start services tr0 = (tr, Fulfilled tt) ->
  tr = tr0 ++ Logged start_message :: block Start start_order
  /\ completed_of Start (block Start start_order) = start_order.
Proof.
  rewrite start_run_all. intros Hstart.
  destruct (run_all_shape services Start start_order (tr0 ++ [Logged start_message]))
    as (pre & tail & r & Hrun & Hend & Hpre & Hall & Hful & Hcalls).
  rewrite Hrun in Hstart. injection Hstart as <- ->.
  rewrite (Hful eq_refl). inversion Hend; subst.
  rewrite app_nil_r, <- app_assoc, completed_of_block. done.
Qed.

(** C4 (as amended).  On a fully started node, the [stop] calls that
    [stop()] makes are an initial part of the reverse of the recorded start
    order, each service at most once; when every [stop] call fulfils they
    are exactly that reverse order: API server, synchronization engine,
    operation pool, core chain, chain observer, network, storage. *)
Theorem stop_reverses_start_order (services : behaviour) (tr0 tr : trace) :
  start services tr0 = (tr, Fulfilled tt) ->
  exists started delta,
    tr = tr0 ++ Logged start_message :: started
    /\ completed_of Start started = start_order
    /\ (stop services tr).1 = tr ++ delta
    /\ calls_of Stop delta `prefix_of` rev (completed_of Start started)
    /\ NoDup (calls_of Stop delta)
    /\ (all_fulfil services Stop stop_order tr ->
        (stop services tr).2 = Fulfilled tt
        /\ calls_of Stop delta = rev (completed_of Start started)
        /\ calls_of Stop delta = [Rpc; Sync; OpPool; Chain; Eth1; Network; Db]).
Proof.
  intros Hstart.
  destruct (start_fulfilled_trace services tr0 tr Hstart) as (Htr & Hdone).
  exists (block Start start_order).
  destruct (run_all_shape services Stop stop_order tr)
    as (pre & tail & r & Hrun & Hend & Hpre & Hall & Hful & Hcalls).
  exists (block Stop pre ++ tail).
  rewrite stop_run_all, Hrun, completed_of_block.
  change (rev start_order) with stop_order. cbn [fst snd].
  split; [exact Htr|]. split; [reflexivity|]. split; [reflexivity|].
  split; [exact Hcalls|].
  split; [by apply (NoDup_prefix _ stop_order), stop_order_NoDup|].
  intros Hok. rewrite (run_all_fulfil _ _ _ _ Hok) in Hrun.
  injection Hrun as Heq <-. apply app_inv_head in Heq.
  rewrite <- Heq, calls_of_block. done.
Qed.

(** A node whose services all start and all stop. *)
Lemma stop_reverses_start_order_witness :
  start all_ok [] = ((start all_ok []).1, Fulfilled tt)
  /\ all_fulfil all_ok Stop stop_order (start all_ok []).1
  /\ exists started delta,
       (start all_ok []).1 = [] ++ Logged start_message :: started
       /\ completed_of Start started = start_order
       /\ (stop all_ok (start all_ok []).1).1 = (start all_ok []).1 ++ delta
       /\ calls_of Stop delta `prefix_of` rev (completed_of Start started)
       /\ NoDup (calls_of Stop delta)
       /\ (all_fulfil all_ok Stop stop_order (start all_ok []).1 ->
           (stop all_ok (start all_ok []).1).2 = Fulfilled tt
           /\ calls_of Stop delta = rev (completed_of Start started)
           /\ calls_of Stop delta = [Rpc; Sync; OpPool; Chain; Eth1; Network; Db]).
Proof.
  split; [reflexivity|].
  split; [simpl; repeat split|].
  apply (stop_reverses_start_order all_ok [] (start all_ok []).1).
  reflexivity.
Defined.

(** C4 (as stated) fails: on a node whose seven services all started, if
    the API server's [stop] rejects then the API server is the only service
    asked to stop; the other six [stop] calls of the reverse order are
    never made. *)
Lemma stop_incomplete_after_failure :
  start (fails_at Stop Rpc (Cause "socket busy")) []
  = ((start (fails_at Stop Rpc (Cause "socket busy")) []).1, Fulfilled tt)
  /\ calls_of Stop
       (stop (fails_at Stop Rpc (Cause "socket busy"))
             (start (fails_at Stop Rpc (Cause "socket busy")) []).1).1
     = [Rpc]
  /\ calls_of Stop
       (stop (fails_at Stop Rpc (Cause "socket busy"))
             (start (fails_at Stop Rpc (Cause "socket busy")) []).1).1
     <> rev start_order.
Proof. split; [reflexivity|]. split; [reflexivity|]. discriminate. Qed.

End LifecycleFacts.

(** ** Configuration composition *)
Module ComposeFacts.

Import Compose.

(** Induction on values, through the lists of items and fields. *)
Lemma value_ind_nested (P : value -> Prop) :
  P VUndefined -> P VNull ->
  (forall b, P (VBool b)) -> (forall n, P (VNum n)) -> (forall s, P (VStr s)) ->
  (forall items, Forall P items -> P (VArray items)) ->
  (forall fs, Forall (fun kv => P kv.2) fs -> P (VRecord fs)) ->
  (forall cls fs, Forall (fun kv => P kv.2) fs -> P (VOpaque cls fs)) ->
  (forall cls, P (VCtor cls)) -> (forall a, P (VRef a)) ->
  forall v, P v.
Proof.
  intros Hu Hn Hb Hz Hs Harr Hrec Hopq Hc Hr.
  fix IH 1. intros [| |b|n|s|items|fs|cls fs|cls|a].
  - exact Hu.
  - exact Hn.
  - apply Hb.
  - apply Hz.
  - apply Hs.
  - apply Harr. induction items as [|x items IHitems]; constructor.
    + apply IH.
    + exact IHitems.
  - apply Hrec. induction fs as [|[k x] fs IHfs]; constructor.
    + apply IH.
    + exact IHfs.
  - apply Hopq. induction fs as [|[k x] fs IHfs]; constructor.
    + apply IH.
    + exact IHfs.
  - apply Hc.
  - apply Hr.
Qed.

Lemma String_eqb_true (a b : string) : String.eqb a b = true <-> a = b.
Proof. apply String.eqb_eq. Qed.

Lemma assoc_app k (l1 l2 : list (string * value)) :
  assoc k (l1 ++ l2)
  = match assoc k l1 with Some v => Some v | None => assoc k l2 end.
Proof.
  induction l1 as [|[k' v] l1 IH]; [reflexivity|]. simpl.
  destruct (String.eqb k k'); [reflexivity|apply IH].
Qed.

(** Mapping over the values of a field list keeps the keys. *)
Lemma assoc_map_values (f : string -> value -> value) k fs :
  assoc k (map (fun kv : string * value => let (k', v) := kv in (k', f k' v)) fs)
  = f k <$> assoc k fs.
Proof.
  induction fs as [|[k' v] fs IH]; [reflexivity|]. simpl.
  destruct (String.eqb k k') eqn:E; [|apply IH].
  apply String.eqb_eq in E. by subst.
Qed.

Lemma has_key_app k (l1 l2 : list (string * value)) :
  has_key k (l1 ++ l2) = has_key k l1 || has_key k l2.
Proof. unfold has_key. rewrite assoc_app. by destruct (assoc k l1). Qed.

Lemma has_key_map_values (f : string -> value -> value) k fs :
  has_key k (map (fun kv : string * value => let (k', v) := kv in (k', f k' v)) fs)
  = has_key k fs.
Proof. unfold has_key. rewrite assoc_map_values. by destruct (assoc k fs). Qed.

Lemma has_key_elem k v (fs : list (string * value)) :
  (k, v) ∈ fs -> has_key k fs = true.
Proof.
  unfold has_key. induction fs as [|[k' v'] fs IH]; intros Hin.
  - by apply elem_of_nil in Hin.
  - simpl. destruct (String.eqb k k') eqn:E; [reflexivity|].
    apply elem_of_cons in Hin as [Heq|Hin]; [|by apply IH].
    injection Heq as -> ->. by rewrite String.eqb_refl in E.
Qed.

Lemma assoc_elem k v (fs : list (string * value)) :
  assoc k fs = Some v -> (k, v) ∈ fs.
Proof.
  induction fs as [|[k' v'] fs IH]; [discriminate|]. simpl.
  destruct (String.eqb k k') eqn:E.
  - apply String.eqb_eq in E. intros [= ->]. subst. apply elem_of_cons. by left.
  - intros H. apply elem_of_cons. right. by apply IH.
Qed.

(** With one binding per key, a binding is the one lookup finds. *)
Lemma NoDup_assoc k v (fs : list (string * value)) :
  NoDup (map fst fs) -> (k, v) ∈ fs -> assoc k fs = Some v.
Proof.
  induction fs as [|[k' v'] fs IH]; intros Hnd Hin.
  - by apply elem_of_nil in Hin.
  - simpl in *. apply NoDup_cons in Hnd as [Hk' Hnd].
    apply elem_of_cons in Hin as [Heq|Hin].
    + injection Heq as -> ->. by rewrite String.eqb_refl.
    + destruct (String.eqb k k') eqn:E; [|by apply IH].
      apply String.eqb_eq in E. subst. exfalso. apply Hk'.
      apply (list_elem_of_fmap_2 fst _ (k', v)). exact Hin.
Qed.

Lemma map_fixed {A} (f : A -> A) (l : list A) :
  Forall (fun x => f x = x) l -> map f l = l.
Proof. induction 1; simpl; congruence. Qed.

Lemma filter_none {A} (f : A -> bool) (l : list A) :
  Forall (fun x => f x = false) l -> List.filter f l = [].
Proof. induction 1 as [|x l Hx _ IH]; simpl; [reflexivity|]. by rewrite Hx. Qed.

Lemma elem_of_filter_bool {A} (f : A -> bool) (l : list A) x :
  x ∈ List.filter f l <-> x ∈ l /\ f x = true.
Proof. rewrite !list_elem_of_In. apply List.filter_In. Qed.

Lemma distinct_NoDup (ks : list string) : distinct ks = true <-> NoDup ks.
Proof.
  induction ks as [|k ks IH]; simpl.
  - split; [constructor|reflexivity].
  - rewrite andb_true_iff, negb_true_iff, NoDup_cons, IH.
    assert (Hex : existsb (String.eqb k) ks = false <-> k ∉ ks); [|by rewrite Hex].
    rewrite <- not_true_iff_false, List.existsb_exists, list_elem_of_In.
    split; intros Hn Hin; apply Hn.
    + exists k. split; [exact Hin|apply String.eqb_refl].
    + destruct Hin as (x & Hin & Heq). apply String.eqb_eq in Heq. by subst.
Qed.

Lemma forallb_Forall {A} (f : A -> bool) (l : list A) :
  forallb f l = true <-> Forall (fun x => f x = true) l.
Proof.
  induction l as [|x l IH]; simpl.
  - split; [constructor|reflexivity].
  - rewrite andb_true_iff, Forall_cons, IH. tauto.
Qed.

Lemma wf_record fs :
  wf_value (VRecord fs) = true
  <-> NoDup (map fst fs)
      /\ Forall (fun kv : string * value => wf_value kv.2 = true) fs.
Proof. simpl. by rewrite andb_true_iff, distinct_NoDup, forallb_Forall. Qed.

Lemma merge_value_records df ovs :
  merge_value (VRecord df) (VRecord ovs) = VRecord (merge_fields df ovs).
Proof. reflexivity. Qed.

(** Unless both sides are plain records the override is the result. *)
Lemma merge_value_replace d o :
  isPlainObject d && isPlainObject o = false -> merge_value d o = o.
Proof. destruct d, o; simpl; try reflexivity; discriminate. Qed.

Lemma merge_fields_nil_r d : merge_fields d [] = d.
Proof.
  unfold merge_fields. simpl. rewrite app_nil_r.
  apply map_fixed, Forall_forall. by intros [k v] _.
Qed.

(** What the merge holds at a key of the defaults. *)
Lemma assoc_merge_fields k dv df ovs :
  assoc k df = Some dv ->
  assoc k (merge_fields df ovs)
  = Some (match assoc k ovs with
          | Some ov => merge_value dv ov
          | None => dv
          end).
Proof.
  intros Hd. unfold merge_fields. rewrite assoc_app.
  rewrite (assoc_map_values
             (fun k dv => match assoc k ovs with
                          | Some ov => merge_value dv ov
                          | None => dv
                          end)).
  by rewrite Hd.
Qed.

(** What the merge holds at a key the defaults do not have. *)
Lemma assoc_merge_fields_new k df ovs :
  assoc k df = None ->
  NoDup (map fst ovs) ->
  assoc k (merge_fields df ovs) = assoc k ovs.
Proof.
  intros Hd Hnd. unfold merge_fields. rewrite assoc_app.
  rewrite (assoc_map_values
             (fun k dv => match assoc k ovs with
                          | Some ov => merge_value dv ov
                          | None => dv
                          end)).
  rewrite Hd. simpl.
  destruct (assoc k ovs) as [ov|] eqn:Ho.
  - apply NoDup_assoc.
    + apply (NoDup_fmap_2_strong fst); [|by apply NoDup_ListNoDup, List.NoDup_filter,
                                          NoDup_ListNoDup, (NoDup_fmap_1 fst)].
      intros [k1 v1] [k2 v2] H1 H2 Heq. simpl in Heq. subst k2.
      apply elem_of_filter_bool in H1 as [H1 _].
      apply elem_of_filter_bool in H2 as [H2 _].
      pose proof (NoDup_assoc _ _ _ Hnd H1) as E1.
      pose proof (NoDup_assoc _ _ _ Hnd H2) as E2. congruence.
    + apply elem_of_filter_bool. split; [by apply assoc_elem|].
      simpl. unfold has_key. by rewrite Hd.
  - destruct (assoc k (List.filter _ ovs)) as [v|] eqn:Hf; [|reflexivity].
    apply assoc_elem, elem_of_filter_bool in Hf as [Hin _].
    by rewrite (NoDup_assoc _ _ _ Hnd Hin) in Ho.
Qed.

Lemma wf_assoc k v fs :
  Forall (fun kv : string * value => wf_value kv.2 = true) fs ->
  assoc k fs = Some v -> wf_value v = true.
Proof.
  intros Hall Hk. apply assoc_elem in Hk.
  rewrite Forall_forall in Hall. exact (Hall _ Hk).
Qed.

(** Merging a tree into itself changes nothing. *)
Lemma merge_value_self v : wf_value v = true -> merge_value v v = v.
Proof.
  induction v as [| | | | | |fs IH| | |] using value_ind_nested;
    intros Hwf; try reflexivity.
  apply wf_record in Hwf as [Hnd Hall].
  rewrite merge_value_records. f_equal. unfold merge_fields.
  rewrite filter_none, app_nil_r.
  - apply map_fixed, Forall_forall. intros [k v] Hin.
    rewrite (NoDup_assoc _ _ _ Hnd Hin). f_equal.
    rewrite Forall_forall in IH, Hall.
    exact (IH _ Hin (Hall _ Hin)).
  - apply Forall_forall. intros [k v] Hin. simpl.
    by rewrite (has_key_elem _ _ _ Hin).
Qed.

(** Merging the same overrides a second time changes nothing. *)
Lemma merge_value_idem d :
  forall o, wf_value o = true -> merge_value (merge_value d o) o = merge_value d o.
Proof.
  induction d as [| | | | | |df IH| | |] using value_ind_nested;
    intros o Hwf; try (simpl; by apply merge_value_self).
  destruct o as [| | | | | |ovs| | |]; try reflexivity.
  pose proof Hwf as Hwf'. apply wf_record in Hwf' as [Hnd Hall].
  rewrite merge_value_records, merge_value_records. f_equal.
  unfold merge_fields at 1.
  set (r := merge_fields df ovs).
  assert (Hnone : List.filter (fun kv : string * value => negb (has_key kv.1 r)) ovs = []).
  { apply filter_none, Forall_forall. intros [k ov] Hin. simpl.
    unfold r, merge_fields. rewrite has_key_app.
    rewrite (has_key_map_values
               (fun k dv => match assoc k ovs with
                            | Some ov => merge_value dv ov
                            | None => dv
                            end)).
    destruct (has_key k df) eqn:Hk; [reflexivity|]. simpl.
    rewrite (has_key_elem k ov); [reflexivity|].
    apply elem_of_filter_bool. split; [exact Hin|]. simpl. by rewrite Hk. }
  rewrite Hnone, app_nil_r.
  apply map_fixed, Forall_forall. intros [k x] Hin.
  unfold r, merge_fields in Hin. apply elem_of_app in Hin as [Hin|Hin].
  - apply list_elem_of_fmap in Hin as ([k' dv] & Heq & Hin).
    injection Heq as -> ->.
    destruct (assoc k' ovs) as [ov|] eqn:Ho; [|reflexivity].
    f_equal. rewrite Forall_forall in IH.
    apply (IH _ Hin). exact (wf_assoc _ _ _ Hall Ho).
  - apply elem_of_filter_bool in Hin as [Hin _].
    rewrite (NoDup_assoc _ _ _ Hnd Hin). f_equal.
    apply merge_value_self. rewrite Forall_forall in Hall. exact (Hall _ Hin).
Qed.

Lemma compose_idem D O :
  wf_tree O = true -> compose (compose D O) O = compose D O.
Proof.
  intros Hwf. pose proof (merge_value_idem (VRecord D) (VRecord O) Hwf) as H.
  rewrite !merge_value_records in H. by injection H.
Qed.

(** C7.  Composing with empty overrides returns the defaults; calling the
    composition twice on the same inputs returns the same tree both times
    and leaves both inputs as they were; and composing the result with the
    same (well-formed) overrides again changes nothing. *)
Theorem compose_laws (D O : ConfigTree) :
  compose D [] = D
  /\ (let fr := {| arg_defaults := D; arg_overrides := O |} in
      (compose_call fr).1 = fr
      /\ (compose_call (compose_call fr).1).1 = fr
      /\ (compose_call (compose_call fr).1).2 = (compose_call fr).2
      /\ (compose_call fr).2 = compose D O)
  /\ (wf_tree O = true -> compose (compose D O) O = compose D O).
Proof.
  split; [apply merge_fields_nil_r|].
  split; [by repeat split|].
  apply compose_idem.
Qed.

(** C8.  At a key bound in both trees, the merge recurses exactly when both
    values are plain records; in every other case (the default or the
    override is an array, a class instance or a primitive) the result at
    that key is the override itself, whole; in particular a plain record
    overriding an opaque default replaces it. *)
Theorem compose_replaces_unless_both_plain
    (D O : ConfigTree) (k : string) (dv ov : value) :
  assoc k D = Some dv ->
  assoc k O = Some ov ->
  (isPlainObject dv && isPlainObject ov = false ->
   assoc k (compose D O) = Some ov)
  /\ (forall cls fs ovs,
        dv = VOpaque cls fs -> ov = VRecord ovs ->
        assoc k (compose D O) = Some (VRecord ovs))
  /\ (forall df ovs,
        dv = VRecord df -> ov = VRecord ovs ->
        assoc k (compose D O) = Some (VRecord (compose df ovs))).
Proof.
  intros Hd Ho. unfold compose.
  rewrite (assoc_merge_fields _ _ _ _ Hd), Ho.
  split; [|split].
  - intros Hplain. by rewrite merge_value_replace.
  - by intros cls fs ovs -> ->.
  - by intros df ovs -> ->.
Qed.

(** Overriding two sections of the sample defaults, twice. *)
Lemma compose_laws_witness :
  wf_tree Samples.opts_network_eth1 = true
  /\ compose (compose Samples.defaultConf Samples.opts_network_eth1)
             Samples.opts_network_eth1
     = compose Samples.defaultConf Samples.opts_network_eth1.
Proof.
  split; [reflexivity|].
  apply (proj2 (proj2 (compose_laws Samples.defaultConf Samples.opts_network_eth1))).
  reflexivity.
Defined.

(** A plain record given for the logging options, which are a [Map] by
    default. *)
Lemma compose_replaces_unless_both_plain_witness :
  assoc "loggingOptions" Samples.defaultConf = Some Samples.loggingOptions
  /\ assoc "loggingOptions" Samples.opts_plain_logging
     = Some (VRecord [("database", VNum 5)])
  /\ isPlainObject Samples.loggingOptions
     && isPlainObject (VRecord [("database", VNum 5)]) = false
  /\ assoc "loggingOptions" (compose Samples.defaultConf Samples.opts_plain_logging)
     = Some (VRecord [("database", VNum 5)]).
Proof.
  split; [reflexivity|]. split; [reflexivity|]. split; [reflexivity|].
  apply (proj1 (compose_replaces_unless_both_plain
                  Samples.defaultConf Samples.opts_plain_logging "loggingOptions"
                  Samples.loggingOptions (VRecord [("database", VNum 5)])
                  eq_refl eq_refl)).
  reflexivity.
Defined.

(** A nested plain section is merged field by field; the class instance
    inside it is replaced whole. *)
Example compose_network_eth1 :
  assoc "network" (compose Samples.defaultConf Samples.opts_network_eth1)
  = Some (VRecord [("maxPeers", VNum 50);
                   ("multiaddrs", VArray [VStr "/ip4/127.0.0.1/tcp/30606"])])
  /\ assoc "eth1" (compose Samples.defaultConf Samples.opts_network_eth1)
     = Some (VRecord [("provider",
                       VOpaque "JsonRpcProvider" [("url", VStr "http://10.0.0.1:8545")]);
                      ("depositContract", VRecord [("deployedAt", VNum 0)])]).
Proof. split; reflexivity. Qed.

End ComposeFacts.

(** ** Construction *)
Module ConstructFacts.

Import Compose Construct.

Lemma wp_bind {A B} (c : M A) (k : A -> M B) Q st :
  wp c (fun a st' => wp (k a) Q st') st -> wp (c ≫= k) Q st.
Proof.
  unfold wp, mbind, M_bind. destruct (c st) as [a st'|e]; auto.
Qed.

Lemma wp_ret {A} (a : A) (Q : A -> state -> Prop) st :
  Q a st -> wp (mret a) Q st.
Proof. auto. Qed.

Lemma wp_lift {A} (r : exn + A) (Q : A -> state -> Prop) st :
  (forall e, r = inl e -> is_type_error e) ->
  (forall a, r = inr a -> Q a st) ->
  wp (lift r) Q st.
Proof. destruct r as [e|a]; unfold wp; simpl; auto. Qed.

Lemma wp_done {A} (c : M A) (Q : A -> state -> Prop) st a st' :
  wp c Q st -> c st = Done a st' -> Q a st'.
Proof. unfold wp. intros H E. by rewrite E in H. Qed.

Lemma wp_thrown {A} (c : M A) (Q : A -> state -> Prop) st e :
  wp c Q st -> c st = Thrown e -> is_type_error e.
Proof. unfold wp. intros H E. by rewrite E in H. Qed.

Lemma get_prop_error v k e : get_prop v k = inl e -> is_type_error e.
Proof. destruct v; simpl; intros [= <-]; eexists; reflexivity. Qed.

Lemma get_index_error v i e : get_index v i = inl e -> is_type_error e.
Proof. destruct v; simpl; intros [= <-]; eexists; reflexivity. Qed.

Lemma call_get_error m k e : call_get m k = inl e -> is_type_error e.
Proof.
  destruct m; simpl; try (intros [= <-]; eexists; reflexivity).
  destruct (String.eqb cls "Map"); intros [= <-]. eexists; reflexivity.
Qed.

(** Mapping [new Api(...)] over a list completes exactly when every item
    is a constructor, and then allocates one instance per item, in order. *)
Lemma wp_map_new_api config items (Q : list value -> state -> Prop) st :
  (forall clss,
      items = map VCtor clss ->
      Q (map VRef (seq (length (heap st)) (length clss)))
        {| heap := heap st
                   ++ map (fun cls => Instance cls
                                        (api_args config (field st "chain")
                                                  (field st "db") (field st "eth1")))
                          clss;
           this := this st; reactions := reactions st |}) ->
  wp (map_M (new_api config) items) Q st.
Proof.
  revert Q st. induction items as [|item items IH]; intros Q st HQ.
  - specialize (HQ [] eq_refl). simpl in HQ. rewrite app_nil_r in HQ.
    destruct st. exact HQ.
  - simpl. apply wp_bind.
    destruct item; try (unfold wp; simpl; eexists; reflexivity).
    unfold wp at 1. simpl. apply wp_bind. apply IH. intros clss ->.
    apply wp_ret. simpl.
    specialize (HQ (cls :: clss) eq_refl). simpl in HQ.
    rewrite length_app, <- app_assoc in *. simpl in *.
    replace (length (heap st) + 1) with (S (length (heap st))) by lia.
    exact HQ.
Qed.


Lemma wp_array_map_apis config v (Q : value -> state -> Prop) st :
  (forall clss,
      v = VArray (map VCtor clss) ->
      Q (VArray (map VRef (seq (length (heap st)) (length clss))))
        {| heap := heap st
                   ++ map (fun cls => Instance cls
                                        (api_args config (field st "chain")
                                                  (field st "db") (field st "eth1")))
                          clss;
           this := this st; reactions := reactions st |}) ->
  wp (array_map v (new_api config)) Q st.
Proof.
  intros HQ.
  destruct v; try (unfold wp; simpl; eexists; reflexivity).
  simpl. apply wp_bind, wp_map_new_api. intros clss ->.
  apply wp_ret. by apply HQ.
Qed.

Lemma wp_prim {A} (c : M A) (Q : A -> state -> Prop) st a st' :
  c st = Done a st' -> Q a st' -> wp c Q st.
Proof. unfold wp. by intros ->. Qed.

Ltac wp_step :=
  lazymatch goal with
  | |- wp (mbind _ _) _ _ => apply wp_bind
  | |- wp (mret _) _ _ => apply wp_ret
  | |- wp (lift (get_prop _ _)) _ _ =>
      apply wp_lift; [apply get_prop_error|intros ? ?]
  | |- wp (lift (get_index _ _)) _ _ =>
      apply wp_lift; [apply get_index_error|intros ? ?]
  | |- wp (lift (call_get _ _)) _ _ =>
      apply wp_lift; [apply call_get_error|intros ? ?]
  | |- wp (array_map _ _) _ _ =>
      apply wp_array_map_apis; intros ? ?; unfold field; simpl
  | |- wp _ _ _ => eapply wp_prim; [reflexivity|]; simpl
  end.


(** The classes of the instances allocated for the API list. *)
Lemma class_of_api_refs pre clss args rest t r :
  map (class_of {| heap := pre ++ map (fun cls => Instance cls args) clss ++ rest;
                   this := t; reactions := r |})
      (map VRef (seq (length pre) (length clss)))
  = map Some clss.
Proof.
  revert pre. induction clss as [|cls clss IH]; intros pre; [reflexivity|].
  simpl. f_equal.
  - by rewrite list_lookup_middle.
  - specialize (IH (pre ++ [Instance cls args])).
    rewrite length_app, <- app_assoc in IH. simpl in IH.
    replace (length pre + 1) with (S (length pre)) in IH by lia.
    exact IH.
Qed.

Ltac read_heap :=
  unfold class_of, injected, ctor_arg, field; simpl;
  rewrite ?list_lookup_middle by reflexivity;
  first [reflexivity|assumption].

Section BeaconNode.

Variable defaultConf : ConfigTree.
Variable module_key : Module_ -> string.
Variable createPeerId_state : pstate.

Notation constructor := (constructor defaultConf module_key createPeerId_state).

(** What every completed construction looks like. *)
Lemma constructor_wp opts config logger :
  wp (constructor opts config logger)
     (fun _ st =>
        let api := default VUndefined (assoc "api" (compose defaultConf opts)) in
        let sync := field st "sync" in
        let rpc := injected st sync "rpc" in
        let network := field st "network" in
        let libp2p := injected st network "libp2p" in
        let server := field st "rpc" in
        (class_of st rpc = Some "SyncRpc"
         /\ injected st rpc "chain" = VUndefined
         /\ injected st rpc "network" = VUndefined
         /\ injected st rpc "db" = field st "db"
         /\ injected st rpc "reps" = field st "reps"
         /\ class_of st sync = Some "Sync"
         /\ injected st sync "chain" = field st "chain"
         /\ injected st sync "network" = network
         /\ injected st sync "db" = field st "db"
         /\ injected st sync "reps" = field st "reps"
         /\ class_of st (field st "chain") = Some "BeaconChain"
         /\ class_of st network = Some "Libp2pNetwork"
         /\ class_of st (field st "db") = Some "BeaconDB"
         /\ class_of st (field st "reps") = Some "ReputationStore")
        /\ (promise_state st libp2p = Some PPending
            /\ exists p0 p1 p2,
                 libp2p = VRef p2
                 /\ reactions st
                    = [{| source := p0; on_fulfilled := InitializePeerInfo; derived := p1 |};
                       {| source := p1; on_fulfilled := NewNodejsNode; derived := p2 |}]
                 /\ promise_state st (VRef p0) = Some createPeerId_state
                 /\ promise_state st (VRef p1) = Some PPending)
        /\ (exists transports clss ws refs,
               get_prop api "transports" = inr transports
               /\ get_prop api "apis" = inr (VArray (map VCtor clss))
               /\ class_of st server = Some "JSONRPC"
               /\ ctor_arg st server 0 = api
               /\ injected st server "transports" = VArray [ws]
               /\ class_of st ws = Some "WSServer"
               /\ get_index transports 0 = inr (ctor_arg st ws 0)
               /\ injected st server "apis" = VArray refs
               /\ map (class_of st) refs = map Some clss))
     fresh.
Proof.
  unfold Construct.constructor, with_logging, conf_section, createPeerId, fresh.
  generalize (compose defaultConf opts). intros conf.
  destruct logger as [lg|]; [destruct (truthy lg) eqn:Hlg|];
    repeat wp_step; subst.
  - split; [repeat split|]. split; [split; [reflexivity|]|].
    + exists 3, 4, 5. repeat split.
    + exists a5, clss, (VRef 12), (map VRef (seq 13 (length clss))).
      repeat (split; [first [assumption|read_heap]|]).
      apply (class_of_api_refs [_; _; _; _; _; _; _; _; _; _; _; _; _]).
  - split; [repeat split|]. split; [split; [reflexivity|]|].
    + exists 4, 5, 6. repeat split.
    + exists a5, clss, (VRef 13), (map VRef (seq 14 (length clss))).
      repeat (split; [first [assumption|read_heap]|]).
      apply (class_of_api_refs [_; _; _; _; _; _; _; _; _; _; _; _; _; _]).
  - split; [repeat split|]. split; [split; [reflexivity|]|].
    + exists 4, 5, 6. repeat split.
    + exists a5, clss, (VRef 13), (map VRef (seq 14 (length clss))).
      repeat (split; [first [assumption|read_heap]|]).
      apply (class_of_api_refs [_; _; _; _; _; _; _; _; _; _; _; _; _; _]).
Qed.

(** For every completed construction: the sync RPC helper was handed
    [undefined] for [chain] and [network], although the node does own a
    chain and a network; the other references it and the synchronization
    engine hold are the node's own. *)
Lemma constructor_injections opts config logger st :
  constructor opts config logger fresh = Done tt st ->
  let sync := field st "sync" in
  let rpc := injected st sync "rpc" in
  (class_of st rpc = Some "SyncRpc"
   /\ injected st rpc "chain" = VUndefined
   /\ injected st rpc "network" = VUndefined
   /\ class_of st (field st "chain") = Some "BeaconChain"
   /\ class_of st (field st "network") = Some "Libp2pNetwork")
  /\ (injected st rpc "db" = field st "db"
      /\ injected st rpc "reps" = field st "reps"
      /\ class_of st sync = Some "Sync"
      /\ injected st sync "chain" = field st "chain"
      /\ injected st sync "network" = field st "network"
      /\ injected st sync "db" = field st "db"
      /\ injected st sync "reps" = field st "reps").
Proof.
  intros Hdone.
  pose proof (wp_done _ _ _ _ _ (constructor_wp opts config logger) Hdone) as H.
  cbv beta zeta in H |- *.
  destruct H as ((H1 & H2 & H3 & H4 & H5 & H6 & H7 & H8 & H9 & H10 & H11 & H12 & _) & _).
  repeat split; assumption.
Qed.

(** C9 (as amended).  The constructor only starts the derivation of the
    network transport: it registers the two steps on the promise of
    [createPeerId()] and hands the last promise of the chain, still
    pending, to the network service it constructs; whatever the state of
    the first promise, that last one is pending when the constructor
    returns, so every service built after the network was built before
    the transport existed. *)
Theorem transport_handed_over_pending opts config logger st :
  constructor opts config logger fresh = Done tt st ->
  let network := field st "network" in
  let libp2p := injected st network "libp2p" in
  class_of st network = Some "Libp2pNetwork"
  /\ promise_state st libp2p = Some PPending
  /\ exists p0 p1 p2,
       libp2p = VRef p2
       /\ reactions st
          = [{| source := p0; on_fulfilled := InitializePeerInfo; derived := p1 |};
             {| source := p1; on_fulfilled := NewNodejsNode; derived := p2 |}]
       /\ promise_state st (VRef p0) = Some createPeerId_state
       /\ promise_state st (VRef p1) = Some PPending.
Proof.
  intros Hdone.
  pose proof (wp_done _ _ _ _ _ (constructor_wp opts config logger) Hdone) as H.
  cbv beta zeta in H |- *.
  destruct H as ((_ & _ & _ & _ & _ & _ & _ & _ & _ & _ & _ & Hnet & _) & (Hpending & Hchain) & _).
  split; [exact Hnet|]. split; [exact Hpending|exact Hchain].
Qed.

(** C10.  The constructor reads [api.transports[0]] and maps over
    [api.apis] of the merged configuration without any check: it never
    reports a [ConfigurationError] (all it can throw is a [TypeError]);
    when it completes, [api.transports] could be indexed and [api.apis]
    was a list of constructors, the [WSServer] received exactly
    [api.transports[0]] (which is [undefined] when the list is empty)
    and one API instance was made per entry of [api.apis]. *)
Theorem constructor_reads_api_unchecked opts config logger :
  (forall e, constructor opts config logger fresh = Thrown e ->
             exists msg, e = TypeError msg)
  /\ (forall msg,
        constructor opts config logger fresh <> Thrown (ConfigurationError msg))
  /\ (forall st,
        constructor opts config logger fresh = Done tt st ->
        let api := default VUndefined (assoc "api" (compose defaultConf opts)) in
        let server := field st "rpc" in
        exists transports clss ws refs,
          get_prop api "transports" = inr transports
          /\ get_prop api "apis" = inr (VArray (map VCtor clss))
          /\ injected st server "transports" = VArray [ws]
          /\ class_of st ws = Some "WSServer"
          /\ get_index transports 0 = inr (ctor_arg st ws 0)
          /\ (transports = VArray [] -> ctor_arg st ws 0 = VUndefined)
          /\ injected st server "apis" = VArray refs
          /\ map (class_of st) refs = map Some clss).
Proof.
  pose proof (constructor_wp opts config logger) as Hwp.
  split; [|split].
  - intros e He. exact (wp_thrown _ _ _ _ Hwp He).
  - intros msg He. destruct (wp_thrown _ _ _ _ Hwp He) as [msg' [=]].
  - intros st Hdone. pose proof (wp_done _ _ _ _ _ Hwp Hdone) as H.
    cbv beta zeta in H |- *.
    destruct H as (_ & _ & transports & clss & ws & refs
                   & Ht & Ha & _ & _ & Hws & Hcls & H0 & Hrefs & Hclss).
    exists transports, clss, ws, refs.
    repeat (split; [assumption|]).
    split; [|split; assumption].
    intros ->. simpl in H0. by injection H0.
Qed.

End BeaconNode.

Import Samples.

(** C6 (the code departs from it).  Every reference injected during
    construction should be the node's own instance, the sync RPC helper
    included.  Built from the defaults, the node owns a chain and a network,
    and the synchronization engine holds these very instances, but the sync
    RPC helper, constructed before either field is assigned, holds
    [undefined] for both. *)
Theorem sync_rpc_built_before_chain_and_network :
  build [] = Done tt node
  /\ class_of node (injected node (field node "sync") "rpc") = Some "SyncRpc"
  /\ (field node "chain" = VRef 11
      /\ class_of node (field node "chain") = Some "BeaconChain"
      /\ injected node (field node "sync") "chain" = VRef 11
      /\ injected node (injected node (field node "sync") "rpc") "chain" = VUndefined)
  /\ (field node "network" = VRef 8
      /\ class_of node (field node "network") = Some "Libp2pNetwork"
      /\ injected node (field node "sync") "network" = VRef 8
      /\ injected node (injected node (field node "sync") "rpc") "network" = VUndefined)
  /\ (injected node (injected node (field node "sync") "rpc") "db" = field node "db"
      /\ injected node (injected node (field node "sync") "rpc") "reps"
         = field node "reps").
Proof. vm_compute. repeat split. Qed.

(** A construction where the peer identity is available at once. *)
Lemma transport_handed_over_pending_witness :
  constructor defaultConf module_key (PFulfilled (VStr "QmPeer")) [] config None fresh
  = Done tt node_with_peer_id
  /\ class_of node_with_peer_id (field node_with_peer_id "network") = Some "Libp2pNetwork"
  /\ promise_state node_with_peer_id
       (injected node_with_peer_id (field node_with_peer_id "network") "libp2p")
     = Some PPending.
Proof.
  assert (Hb : constructor defaultConf module_key (PFulfilled (VStr "QmPeer"))
                           [] config None fresh
               = Done tt node_with_peer_id)
    by (vm_compute; reflexivity).
  split; [exact Hb|].
  pose proof (transport_handed_over_pending
                defaultConf module_key (PFulfilled (VStr "QmPeer"))
                [] config None node_with_peer_id Hb) as H.
  split; [exact (proj1 H)|exact (proj1 (proj2 H))].
Defined.

(** C9 (as stated) fails: even when the peer identity is available at
    once, the network service is constructed with a promise of the
    transport that is still pending, and no transport has been built when
    the constructor returns. *)
Lemma transport_unresolved_at_construction :
  build_with_peer_id [] = Done tt node_with_peer_id
  /\ class_of node_with_peer_id (field node_with_peer_id "network") = Some "Libp2pNetwork"
  /\ injected node_with_peer_id (field node_with_peer_id "network") "libp2p" = VRef 6
  /\ heap node_with_peer_id !! 6 = Some (Promise PPending)
  /\ heap node_with_peer_id !! 6 <> Some (Promise (PFulfilled (VRef 17)))
  /\ count_instances node_with_peer_id "NodejsNode" = 0.
Proof. vm_compute. repeat split. discriminate. Qed.

(** A construction with an empty list of transports. *)
Lemma constructor_reads_api_unchecked_witness :
  constructor defaultConf module_key PPending opts_no_transports config None fresh
  = Done tt node_no_transports
  /\ exists transports clss ws refs,
       get_prop (default VUndefined
                   (assoc "api" (compose defaultConf opts_no_transports)))
                "transports" = inr transports
       /\ get_prop (default VUndefined
                      (assoc "api" (compose defaultConf opts_no_transports)))
                   "apis" = inr (VArray (map VCtor clss))
       /\ injected node_no_transports (field node_no_transports "rpc") "transports"
          = VArray [ws]
       /\ class_of node_no_transports ws = Some "WSServer"
       /\ get_index transports 0 = inr (ctor_arg node_no_transports ws 0)
       /\ (transports = VArray [] -> ctor_arg node_no_transports ws 0 = VUndefined)
       /\ injected node_no_transports (field node_no_transports "rpc") "apis"
          = VArray refs
       /\ map (class_of node_no_transports) refs = map Some clss.
Proof.
  assert (Hb : constructor defaultConf module_key PPending opts_no_transports
                           config None fresh
               = Done tt node_no_transports)
    by (vm_compute; reflexivity).
  split; [exact Hb|].
  exact (proj2 (proj2 (constructor_reads_api_unchecked
                         defaultConf module_key PPending
                         opts_no_transports config None))
               node_no_transports Hb).
Defined.

(** An empty list of transports is not reported: the server is built with
    [undefined] for its options. *)
Example no_transports_builds_server_with_undefined :
  build opts_no_transports = Done tt node_no_transports
  /\ injected node_no_transports (field node_no_transports "rpc") "transports"
     = VArray [VRef 13]
  /\ heap node_no_transports !! 13 = Some (Instance "WSServer" [VUndefined]).
Proof. vm_compute. repeat split. Qed.

(** Without a [transports] to index, a list to map over or constructors
    in it, construction stops with a [TypeError]. *)
Example transports_undefined_throws :
  build opts_transports_undefined = Thrown (TypeError "Cannot read property 0").
Proof. vm_compute. reflexivity. Qed.

Example apis_not_a_list_throws :
  build opts_apis_not_a_list = Thrown (TypeError "map is not a function").
Proof. vm_compute. reflexivity. Qed.

Example apis_not_constructors_throws :
  build opts_apis_not_constructors = Thrown (TypeError "Api is not a constructor").
Proof. vm_compute. reflexivity. Qed.

End ConstructFacts.

(** * Further properties *)

(** ** Paths *)
Module PathsMore.

Import Paths Vocabulary.

Lemma or_else_blank (o : option string) (d : string) :
  or_else o d = default d (blank_to_absent o).
Proof. destruct o as [s|]; simpl; [|reflexivity]. by destruct (String.eqb s ""). Qed.

Lemma or_else_blank_eq (o1 o2 : option string) (d : string) :
  blank_to_absent o1 = blank_to_absent o2 -> or_else o1 d = or_else o2 d.
Proof. intros H. by rewrite !or_else_blank, H. Qed.

Section WithHelpers.

Variable globalRootDir : Options -> string.
Variable joinIfRelative : string -> string -> string.

(** X1.  The resolved paths depend on the options only through the global
    root directory, the [dbDir], [configFile], [peerIdFile] and [enrFile]
    overrides (an empty string counting as no override) and the [logFile]
    option: the [beaconDir] and [peerStoreDir] options are never read. *)
Theorem getBeaconPaths_reads_only (o1 o2 : Options) :
  globalRootDir o1 = globalRootDir o2 ->
  blank_to_absent (opt_dbDir o1) = blank_to_absent (opt_dbDir o2) ->
  blank_to_absent (opt_configFile o1) = blank_to_absent (opt_configFile o2) ->
  blank_to_absent (opt_peerIdFile o1) = blank_to_absent (opt_peerIdFile o2) ->
  blank_to_absent (opt_enrFile o1) = blank_to_absent (opt_enrFile o2) ->
  opt_logFile o1 = opt_logFile o2 ->
  getBeaconPaths globalRootDir joinIfRelative o1
  = getBeaconPaths globalRootDir joinIfRelative o2.
Proof.
  intros Hroot Hdb Hconf Hpeer Henr Hlog. unfold getBeaconPaths.
  rewrite Hroot, Hlog.
  rewrite (or_else_blank_eq _ _ "chain-db" Hdb), (or_else_blank_eq _ _ "peerstore" Hdb).
  rewrite (or_else_blank_eq _ _ _ Hconf), (or_else_blank_eq _ _ _ Hpeer).
  rewrite (or_else_blank_eq _ _ _ Henr). reflexivity.
Qed.

(** X2.  There is no default log file: the resolved [logFile] is absent
    exactly when the option is absent; an empty string is handed back as it
    is, not joined onto the base; any other value is joined onto the global
    root directory. *)
Theorem logFile_only_on_request (o : Options) :
  (logFile (getBeaconPaths globalRootDir joinIfRelative o) = None
   <-> opt_logFile o = None)
  /\ (opt_logFile o = Some "" ->
      logFile (getBeaconPaths globalRootDir joinIfRelative o) = Some "")
  /\ (forall l, opt_logFile o = Some l -> l <> "" ->
      logFile (getBeaconPaths globalRootDir joinIfRelative o)
      = Some (joinIfRelative (globalRootDir o) l)).
Proof.
  unfold getBeaconPaths. simpl. split; [|split].
  - destruct (opt_logFile o) as [l|]; simpl; [|tauto].
    destruct (String.eqb l ""); split; discriminate.
  - by intros ->.
  - intros l -> Hl. simpl. apply String.eqb_neq in Hl. by rewrite Hl.
Qed.

End WithHelpers.

(** Two option sets that differ in the [beaconDir] and [peerStoreDir]
    overrides and write "no [configFile]" differently. *)
Lemma getBeaconPaths_reads_only_witness :
  getBeaconPaths globalRootDir_spec joinIfRelative_spec
    {| rootDir := "/data/node1"; opt_beaconDir := Some "/elsewhere";
       opt_peerStoreDir := Some "/custom/peers"; opt_dbDir := None;
       opt_configFile := Some ""; opt_peerIdFile := None; opt_enrFile := None;
       opt_logFile := Some "beacon.log" |}
  = getBeaconPaths globalRootDir_spec joinIfRelative_spec
      {| rootDir := "/data/node1"; opt_beaconDir := None;
         opt_peerStoreDir := None; opt_dbDir := None;
         opt_configFile := None; opt_peerIdFile := None; opt_enrFile := None;
         opt_logFile := Some "beacon.log" |}.
Proof. apply getBeaconPaths_reads_only; reflexivity. Defined.

Lemma logFile_only_on_request_witness :
  logFile (resolve {| rootDir := "/data/node1"; opt_beaconDir := None;
                      opt_peerStoreDir := None; opt_dbDir := None;
                      opt_configFile := None; opt_peerIdFile := None;
                      opt_enrFile := None; opt_logFile := Some "beacon.log" |})
  = Some "/data/node1/beacon.log".
Proof.
  assert (Hne : "beacon.log" <> "") by discriminate.
  exact (proj2 (proj2 (logFile_only_on_request
                         globalRootDir_spec joinIfRelative_spec
                         {| rootDir := "/data/node1"; opt_beaconDir := None;
                            opt_peerStoreDir := None; opt_dbDir := None;
                            opt_configFile := None; opt_peerIdFile := None;
                            opt_enrFile := None; opt_logFile := Some "beacon.log" |}))
               "beacon.log" eq_refl Hne).
Defined.

End PathsMore.

(** ** Lifecycle *)
Module LifecycleMore.

Import Lifecycle LifecycleFacts Vocabulary.

Lemma no_logs_app (t1 t2 : trace) : no_logs (t1 ++ t2) = no_logs t1 && no_logs t2.
Proof. unfold no_logs. apply forallb_app. Qed.

Lemma no_logs_block m ss : no_logs (block m ss) = true.
Proof. induction ss as [|s ss IH]; [reflexivity|]. rewrite block_cons. exact IH. Qed.

Lemma no_logs_ending m tail r : ending m tail r -> no_logs tail = true.
Proof. by intros []. Qed.

(** Two ways of splitting one list at an element. *)
Lemma split_cases (pre : list service) : forall pre0 s s0 post post0,
  pre ++ s :: post = pre0 ++ s0 :: post0 ->
  (exists mid, pre0 = pre ++ s :: mid)
  \/ (pre = pre0 /\ s = s0)
  \/ (exists mid, pre = pre0 ++ s0 :: mid).
Proof.
  induction pre as [|a pre IH]; intros [|b pre0] s s0 post post0 Heq;
    simpl in Heq; injection Heq as -> Heq.
  - right. by left.
  - left. by exists pre0.
  - right. right. by exists pre.
  - destruct (IH _ _ _ _ _ Heq) as [[mid ->]|[[-> ->]|[mid ->]]].
    + left. by exists mid.
    + right. by left.
    + right. right. by exists mid.
Qed.

Section Node.

Variable services : behaviour.

(** When a run of awaited calls ends at [s0], the first service not to
    fulfil: a service was called exactly if all those before it fulfilled,
    and has completed exactly if it fulfilled too. *)
Lemma called_iff m ss tr pre0 s0 post0 :
  NoDup ss ->
  ss = pre0 ++ s0 :: post0 ->
  all_fulfil services m pre0 tr ->
  services m s0 (tr ++ block m pre0) <> Fulfilled tt ->
  forall pre s post,
    ss = pre ++ s :: post ->
    (s ∈ pre0 ++ [s0] <-> all_fulfil services m pre tr)
    /\ (s ∈ pre0 <-> all_fulfil services m (pre ++ [s]) tr).
Proof.
  intros Hnd -> Hpre0 Hs0 pre s post Heq. symmetry in Heq.
  assert (Hstuck : forall rest, ~ all_fulfil services m (pre0 ++ s0 :: rest) tr).
  { intros rest Hall. apply all_fulfil_app in Hall as [_ [Hs _]]. by apply Hs0. }
  destruct (split_cases _ _ _ _ _ _ Heq) as [[mid ->]|[[-> ->]|[mid ->]]].
  - split; split; intros _.
    + by apply all_fulfil_app in Hpre0 as [? _].
    + rewrite elem_of_app, elem_of_app, elem_of_cons. tauto.
    + rewrite (cons_middle s pre mid), app_assoc in Hpre0.
      by apply all_fulfil_app in Hpre0 as [? _].
    + rewrite elem_of_app, elem_of_cons. tauto.
  - split; split.
    + by intros _.
    + intros _. rewrite elem_of_app, elem_of_cons. tauto.
    + intros Hin. exfalso. apply NoDup_app in Hnd as (_ & Hdisj & _).
      apply (Hdisj _ Hin). by left.
    + intros Hall. exfalso. by apply (Hstuck []).
  - assert (Hnot : s ∉ pre0 ++ s0 :: mid).
    { rewrite <- Heq in Hnd. apply NoDup_app in Hnd as (_ & Hdisj & _).
      intros Hin. apply (Hdisj _ Hin). by left. }
    split; split.
    + intros Hin. exfalso. apply Hnot.
      rewrite elem_of_app, elem_of_cons.
      rewrite elem_of_app, elem_of_cons, elem_of_nil in Hin. tauto.
    + intros Hall. exfalso. by apply (Hstuck mid).
    + intros Hin. exfalso. apply Hnot. rewrite elem_of_app. by left.
    + intros Hall. exfalso. apply all_fulfil_app in Hall as [Hall _].
      by apply (Hstuck mid).
Qed.

(** From the outcome of a run of awaited calls back to what the services
    did. *)
Lemma run_all_inv m ss : forall tr tr' r,
  run_all services m ss tr = (tr', r) ->
  match r with
  | Fulfilled _ => all_fulfil services m ss tr /\ tr' = tr ++ block m ss
  | Rejected e =>
      exists pre s post,
        ss = pre ++ s :: post
        /\ all_fulfil services m pre tr
        /\ services m s (tr ++ block m pre) = Rejected e
        /\ tr' = tr ++ block m pre ++ [Called m s; Threw m s e]
  | Pending =>
      exists pre s post,
        ss = pre ++ s :: post
        /\ all_fulfil services m pre tr
        /\ services m s (tr ++ block m pre) = Pending
        /\ tr' = tr ++ block m pre ++ [Called m s]
  end.
Proof.
  induction ss as [|s ss IH]; intros tr tr' r Hrun.
  - injection Hrun as <- <-. split; [exact I|]. by rewrite app_nil_r.
  - rewrite run_all_cons in Hrun.
    destruct (services m s tr) as [[]|e|] eqn:Hs.
    + rewrite (invoke_fulfilled _ _ _ _ Hs) in Hrun.
      specialize (IH _ _ _ Hrun). destruct r as [[]|e'|].
      * destruct IH as [Hall ->]. split; [by split|].
        by rewrite block_cons, <- app_assoc.
      * destruct IH as (pre & x & post & -> & Hall & Hx & ->).
        exists (s :: pre), x, post. rewrite block_cons.
        rewrite <- !app_assoc in *. by repeat split.
      * destruct IH as (pre & x & post & -> & Hall & Hx & ->).
        exists (s :: pre), x, post. rewrite block_cons.
        rewrite <- !app_assoc in *. by repeat split.
    + rewrite (invoke_rejected _ _ _ _ _ Hs) in Hrun. injection Hrun as <- <-.
      exists [], s, ss. change (block m []) with (@nil event).
      rewrite app_nil_r. by repeat split.
    + rewrite (invoke_pending _ _ _ _ Hs) in Hrun. injection Hrun as <- <-.
      exists [], s, ss. change (block m []) with (@nil event).
      rewrite app_nil_r. by repeat split.
Qed.

(** The outcome of a run is decided by the first call that does not
    fulfil. *)
Lemma run_all_outcome m ss tr :
  ((run_all services m ss tr).2 = Fulfilled tt <-> all_fulfil services m ss tr)
  /\ (forall e,
        (run_all services m ss tr).2 = Rejected e
        <-> exists pre s post,
              ss = pre ++ s :: post
              /\ all_fulfil services m pre tr
              /\ services m s (tr ++ block m pre) = Rejected e)
  /\ ((run_all services m ss tr).2 = Pending
      <-> exists pre s post,
            ss = pre ++ s :: post
            /\ all_fulfil services m pre tr
            /\ services m s (tr ++ block m pre) = Pending).
Proof.
  destruct (run_all services m ss tr) as [tr' r] eqn:Hrun.
  pose proof (run_all_inv _ _ _ _ _ Hrun) as Hinv. simpl.
  split; [|split].
  - split.
    + intros ->. exact (proj1 Hinv).
    + intros Hall. rewrite (run_all_fulfil _ _ _ _ Hall) in Hrun. congruence.
  - intros e. split.
    + intros ->. destruct Hinv as (pre & s & post & ? & ? & ? & _). eauto 6.
    + intros (pre & s & post & -> & Hall & Hs).
      rewrite (run_all_reject _ _ _ _ _ _ _ Hall Hs) in Hrun. congruence.
  - split.
    + intros ->. destruct Hinv as (pre & s & post & ? & ? & ? & _). eauto 6.
    + intros (pre & s & post & -> & Hall & Hs).
      rewrite (run_all_hang _ _ _ _ _ _ Hall Hs) in Hrun. congruence.
Qed.

(** Which services a run of awaited calls has called and completed. *)
Lemma run_all_called m ss tr tr' r :
  NoDup ss ->
  run_all services m ss tr = (tr', r) ->
  exists delta,
    tr' = tr ++ delta
    /\ forall pre s post,
         ss = pre ++ s :: post ->
         (s ∈ calls_of m delta <-> all_fulfil services m pre tr)
         /\ (s ∈ completed_of m delta <-> all_fulfil services m (pre ++ [s]) tr).
Proof.
  intros Hnd Hrun. pose proof (run_all_inv _ _ _ _ _ Hrun) as Hinv.
  destruct r as [[]|e|].
  - destruct Hinv as [Hall ->]. exists (block m ss). split; [reflexivity|].
    intros pre s post ->. rewrite calls_of_block, completed_of_block.
    split; split; intros _.
    + by apply all_fulfil_app in Hall as [? _].
    + rewrite elem_of_app, elem_of_cons. tauto.
    + rewrite (cons_middle s pre post), app_assoc in Hall.
      by apply all_fulfil_app in Hall as [? _].
    + rewrite elem_of_app, elem_of_cons. tauto.
  - destruct Hinv as (pre0 & s0 & post0 & Hss & Hpre0 & Hs0 & ->).
    exists (block m pre0 ++ [Called m s0; Threw m s0 e]). split; [reflexivity|].
    rewrite calls_of_app, completed_of_app, calls_of_block, completed_of_block.
    simpl. rewrite decide_True by reflexivity. rewrite app_nil_r.
    apply (called_iff m ss tr pre0 s0 post0 Hnd Hss Hpre0). by rewrite Hs0.
  - destruct Hinv as (pre0 & s0 & post0 & Hss & Hpre0 & Hs0 & ->).
    exists (block m pre0 ++ [Called m s0]). split; [reflexivity|].
    rewrite calls_of_app, completed_of_app, calls_of_block, completed_of_block.
    simpl. rewrite decide_True by reflexivity. rewrite app_nil_r.
    apply (called_iff m ss tr pre0 s0 post0 Hnd Hss Hpre0). by rewrite Hs0.
Qed.

(** X4.  [stop()] fulfils exactly when every service's [stop], called in
    reverse order, fulfils; it rejects with [e] exactly when some service's
    [stop] rejects with [e] after all the services before it fulfilled; and
    it never settles exactly when some service's [stop] never settles after
    all the services before it fulfilled. *)
Theorem stop_outcome (tr : trace) :
  ((stop services tr).2 = Fulfilled tt
   <-> all_fulfil services Stop stop_order tr)
  /\ (forall e,
        (stop services tr).2 = Rejected e
        <-> exists pre s post,
              stop_order = pre ++ s :: post
              /\ all_fulfil services Stop pre tr
              /\ services Stop s (tr ++ block Stop pre) = Rejected e)
  /\ ((stop services tr).2 = Pending
      <-> exists pre s post,
            stop_order = pre ++ s :: post
            /\ all_fulfil services Stop pre tr
            /\ services Stop s (tr ++ block Stop pre) = Pending).
Proof. rewrite stop_run_all. apply run_all_outcome. Qed.

(** X5.  A [start] that never settles suspends [start()] for ever: the
    services before it are running, it was the last one called, nothing
    failed, and no later service is ever called. *)
Theorem start_suspends_at_pending (tr : trace)
    (pre : list service) (s : service) (post : list service) :
  start_order = pre ++ s :: post ->
  all_fulfil services Start pre (tr ++ [Logged start_message]) ->
  services Start s ((tr ++ [Logged start_message]) ++ block Start pre) = Pending ->
  exists delta,
    start services tr = (tr ++ Logged start_message :: delta, Pending)
    /\ completed_of Start delta = pre
    /\ calls_of Start delta = pre ++ [s]
    /\ failures_of delta = []
    /\ (forall x, x ∈ post -> x ∉ calls_of Start delta).
Proof.
  intros Hord Hpre Hs.
  exists (block Start pre ++ [Called Start s]).
  rewrite start_run_all, Hord, (run_all_hang _ _ _ _ _ _ Hpre Hs).
  rewrite calls_of_app, completed_of_app, failures_of_app.
  rewrite calls_of_block, completed_of_block, failures_of_block. simpl.
  rewrite ?decide_True by reflexivity. rewrite app_nil_r.
  split; [by rewrite <- app_assoc|].
  repeat split.
  intros x Hx. by apply (not_called_after start_order pre post s x start_order_NoDup).
Qed.

(** X6.  A [stop] that never settles suspends [stop()] for ever: the
    services after it in the stop order are never asked to stop. *)
Theorem stop_suspends_at_pending (tr : trace)
    (pre : list service) (s : service) (post : list service) :
  stop_order = pre ++ s :: post ->
  all_fulfil services Stop pre tr ->
  services Stop s (tr ++ block Stop pre) = Pending ->
  exists delta,
    stop services tr = (tr ++ delta, Pending)
    /\ completed_of Stop delta = pre
    /\ calls_of Stop delta = pre ++ [s]
    /\ failures_of delta = []
    /\ (forall x, x ∈ post -> x ∉ calls_of Stop delta).
Proof.
  intros Hord Hpre Hs.
  exists (block Stop pre ++ [Called Stop s]).
  rewrite stop_run_all, Hord, (run_all_hang _ _ _ _ _ _ Hpre Hs).
  rewrite calls_of_app, completed_of_app, failures_of_app.
  rewrite calls_of_block, completed_of_block, failures_of_block. simpl.
  rewrite ?decide_True by reflexivity. rewrite app_nil_r.
  repeat split.
  intros x Hx. by apply (not_called_after stop_order pre post s x stop_order_NoDup).
Qed.

(** X7.  [stop()] awaits each [stop] before the next: a service is asked
    to stop exactly if the [stop] of every service before it in the stop
    order has fulfilled, and has stopped exactly if its own has fulfilled
    too; the calls made are an initial part of the stop order; no call
    begins while another is in flight.  It logs nothing and calls no
    [start]. *)
Theorem stop_is_sequential (tr : trace) :
  exists delta,
    (stop services tr).1 = tr ++ delta
    /\ (forall pre s post,
          [Rpc; Sync; OpPool; Chain; Eth1; Network; Db] = pre ++ s :: post ->
          (s ∈ calls_of Stop delta <-> all_fulfil services Stop pre tr)
          /\ (s ∈ completed_of Stop delta
              <-> all_fulfil services Stop (pre ++ [s]) tr))
    /\ calls_of Stop delta `prefix_of` [Rpc; Sync; OpPool; Chain; Eth1; Network; Db]
    /\ no_logs delta = true
    /\ calls_of Start delta = []
    /\ sequential None delta = true
    /\ (forall p s q,
          delta = p ++ Called Stop s :: q ->
          completed_of Stop p = calls_of Stop p).
Proof.
  rewrite stop_run_all.
  destruct (run_all_shape services Stop stop_order tr)
    as (pre & tail & r & Hrun & Hend & _ & _ & _ & Hcalls).
  destruct (run_all_called Stop stop_order tr _ _ stop_order_NoDup Hrun)
    as (delta & Heq & Hiff).
  apply app_inv_head in Heq. subst delta.
  exists (block Stop pre ++ tail). rewrite Hrun. cbn [fst].
  split; [reflexivity|].
  split; [exact Hiff|].
  split; [exact Hcalls|].
  split; [by rewrite no_logs_app, no_logs_block, (no_logs_ending _ _ _ Hend)|].
  split.
  { rewrite calls_of_app, calls_of_block_other by discriminate.
    by apply (calls_of_ending_other Start Stop tail r). }
  split; [rewrite sequential_block; by apply (sequential_ending Stop tail r)|].
  intros p s q Heq. by apply (block_split Stop pre tail r p s q).
Qed.

(** The history a failed [start()] leaves. *)
Lemma start_failure_trace (tr : trace)
    (pre : list service) (s : service) (post : list service) (e : failure) :
  start_order = pre ++ s :: post ->
  all_fulfil services Start pre (tr ++ [Logged start_message]) ->
  services Start s ((tr ++ [Logged start_message]) ++ block Start pre) = Rejected e ->
  start services tr
  = (tr ++ Logged start_message :: block Start pre ++ [Called Start s; Threw Start s e],
     Rejected e)
  /\ completed_of Start (block Start pre ++ [Called Start s; Threw Start s e]) = pre.
Proof.
  intros Hord Hpre Hs.
  rewrite start_run_all, Hord, (run_all_reject _ _ _ _ _ _ _ Hpre Hs).
  rewrite completed_of_app, completed_of_block. simpl. rewrite app_nil_r.
  split; [by rewrite <- app_assoc|reflexivity].
Qed.

(** X8.  [stop()] does not look at what was started: after a [start()] that
    failed at service [s], a [stop()] whose calls all fulfil asks all seven
    services to stop, [s] and the services after it included, although none
    of these ever started. *)
Theorem stop_after_failed_start_stops_everything (tr : trace)
    (pre : list service) (s : service) (post : list service) (e : failure) :
  start_order = pre ++ s :: post ->
  all_fulfil services Start pre (tr ++ [Logged start_message]) ->
  services Start s ((tr ++ [Logged start_message]) ++ block Start pre) = Rejected e ->
  all_fulfil services Stop stop_order (start services tr).1 ->
  exists started delta,
    (start services tr).1 = tr ++ Logged start_message :: started
    /\ stop services (start services tr).1
       = ((start services tr).1 ++ delta, Fulfilled tt)
    /\ calls_of Stop delta = [Rpc; Sync; OpPool; Chain; Eth1; Network; Db]
    /\ (forall x, x ∈ s :: post ->
                  x ∉ completed_of Start started /\ x ∈ calls_of Stop delta).
Proof.
  intros Hord Hpre Hs Hstop.
  destruct (start_failure_trace tr pre s post e Hord Hpre Hs) as [Hstart Hdone].
  exists (block Start pre ++ [Called Start s; Threw Start s e]), (block Stop stop_order).
  rewrite Hstart in *. cbn [fst] in *.
  rewrite stop_run_all, (run_all_fulfil _ _ _ _ Hstop), calls_of_block.
  split; [reflexivity|]. split; [reflexivity|]. split; [reflexivity|].
  intros x Hx. split.
  - rewrite Hdone. intros Hin.
    pose proof start_order_NoDup as Hnd. rewrite Hord in Hnd.
    apply NoDup_app in Hnd as (_ & Hdisj & _). exact (Hdisj _ Hin Hx).
  - assert (Hin : x ∈ start_order) by (rewrite Hord, elem_of_app; by right).
    unfold stop_order. unfold start_order in Hin.
    rewrite !elem_of_cons, elem_of_nil in *. tauto.
Qed.

End Node.

(** The network failing to stop, and a node that stops. *)
Lemma stop_outcome_witness :
  (stop (fails_at Stop Network (Cause "dial in progress")) []).2
  = Rejected (Cause "dial in progress")
  /\ (stop all_ok []).2 = Fulfilled tt.
Proof.
  split.
  - apply (proj2 (proj1 (proj2 (stop_outcome
                                   (fails_at Stop Network (Cause "dial in progress")) []))
                        (Cause "dial in progress"))).
    exists [Rpc; Sync; OpPool; Chain; Eth1], Network, [Db].
    split; [reflexivity|]. split; [simpl; repeat split|reflexivity].
  - apply (proj2 (proj1 (stop_outcome all_ok []))). simpl. repeat split.
Defined.

(** The chain never finishing to stop: the chain observer is not asked. *)
Lemma stop_is_sequential_witness :
  all_fulfil (hangs_at Stop Chain) Stop [Rpc; Sync; OpPool] []
  /\ ~ all_fulfil (hangs_at Stop Chain) Stop [Rpc; Sync; OpPool; Chain] []
  /\ Chain ∈ calls_of Stop (stop (hangs_at Stop Chain) []).1
  /\ Eth1 ∉ calls_of Stop (stop (hangs_at Stop Chain) []).1.
Proof.
  destruct (stop_is_sequential (hangs_at Stop Chain) [])
    as (delta & Heq & Hiff & _).
  simpl app in Heq. rewrite Heq.
  assert (Hok : all_fulfil (hangs_at Stop Chain) Stop [Rpc; Sync; OpPool] [])
    by (simpl; repeat split).
  assert (Hno : ~ all_fulfil (hangs_at Stop Chain) Stop [Rpc; Sync; OpPool; Chain] []).
  { simpl. intros (_ & _ & _ & H & _). discriminate H. }
  split; [exact Hok|]. split; [exact Hno|]. split.
  - by apply (proj1 (Hiff [Rpc; Sync; OpPool] Chain [Eth1; Network; Db] eq_refl)).
  - intros Hin.
    by apply Hno, (proj1 (Hiff [Rpc; Sync; OpPool; Chain] Eth1 [Network; Db] eq_refl)).
Defined.

(** The network never finishing to start. *)
Lemma start_suspends_at_pending_witness :
  start_order = [Db] ++ Network :: [Eth1; Chain; OpPool; Sync; Rpc]
  /\ exists delta,
       start (hangs_at Start Network) []
       = ([] ++ Logged start_message :: delta, Pending)
       /\ completed_of Start delta = [Db]
       /\ calls_of Start delta = [Db] ++ [Network]
       /\ failures_of delta = []
       /\ (forall x, x ∈ [Eth1; Chain; OpPool; Sync; Rpc] -> x ∉ calls_of Start delta).
Proof.
  split; [reflexivity|].
  apply (start_suspends_at_pending (hangs_at Start Network) []
           [Db] Network [Eth1; Chain; OpPool; Sync; Rpc]).
  - reflexivity.
  - simpl. repeat split.
  - reflexivity.
Defined.

(** The chain never finishing to stop. *)
Lemma stop_suspends_at_pending_witness :
  stop_order = [Rpc; Sync; OpPool] ++ Chain :: [Eth1; Network; Db]
  /\ exists delta,
       stop (hangs_at Stop Chain) [] = ([] ++ delta, Pending)
       /\ completed_of Stop delta = [Rpc; Sync; OpPool]
       /\ calls_of Stop delta = [Rpc; Sync; OpPool] ++ [Chain]
       /\ failures_of delta = []
       /\ (forall x, x ∈ [Eth1; Network; Db] -> x ∉ calls_of Stop delta).
Proof.
  split; [reflexivity|].
  apply (stop_suspends_at_pending (hangs_at Stop Chain) []
           [Rpc; Sync; OpPool] Chain [Eth1; Network; Db]).
  - reflexivity.
  - simpl. repeat split.
  - reflexivity.
Defined.

(** The chain failing to start, then a [stop()] that goes through. *)
Lemma stop_after_failed_start_stops_everything_witness :
  (start (fails_at Start Chain (Cause "chain: database not open")) []).2
  = Rejected (Cause "chain: database not open")
  /\ exists started delta,
       (start (fails_at Start Chain (Cause "chain: database not open")) []).1
       = [] ++ Logged start_message :: started
       /\ stop (fails_at Start Chain (Cause "chain: database not open"))
               (start (fails_at Start Chain (Cause "chain: database not open")) []).1
          = ((start (fails_at Start Chain (Cause "chain: database not open")) []).1
             ++ delta, Fulfilled tt)
       /\ calls_of Stop delta = [Rpc; Sync; OpPool; Chain; Eth1; Network; Db]
       /\ (forall x, x ∈ Chain :: [OpPool; Sync; Rpc] ->
                     x ∉ completed_of Start started /\ x ∈ calls_of Stop delta).
Proof.
  split; [reflexivity|].
  apply (stop_after_failed_start_stops_everything
           (fails_at Start Chain (Cause "chain: database not open")) []
           [Db; Network; Eth1] Chain [OpPool; Sync; Rpc]
           (Cause "chain: database not open")).
  - reflexivity.
  - simpl. repeat split.
  - reflexivity.
  - simpl. repeat split.
Defined.

End LifecycleMore.

(** ** Construction *)

(** ** [start] with its logger *)
Module OrchestratorFacts.

Import Lifecycle LifecycleFacts Vocabulary LifecycleMore Orchestrator.

Lemma start_unfold (logger : logging) (services : behaviour) (tr : trace) :
  start logger services tr
  = match logger start_message tr with
    | Fulfilled _ =>
        run_all services Start start_order (tr ++ [Logged start_message])
    | Rejected e => (tr, Rejected e)
    | Pending => (tr, Pending)
    end.
Proof.
  unfold start, async_bind at 1, logger_info, start_message.
  by destruct (logger _ tr).
Qed.

(** With a logger whose [info] returns, [start] is [Lifecycle.start]. *)
Lemma start_quiet (services : behaviour) (tr : trace) :
  start quiet services tr = Lifecycle.start services tr.
Proof. reflexivity. Qed.

(** C5.  [start()] calls the services' [start] in the order storage,
    network, chain observer, core chain, operation pool, synchronization,
    API server, awaiting each before the next: a service's [start] is
    called exactly if the log call returned and the [start] of every service
    before it in that order has fulfilled, and the service has started
    exactly if its own [start] has fulfilled too; so the calls made are an
    initial part of that sequence (all of it exactly when [start()]
    fulfils); no call begins while another is in flight, and when a call
    begins every call made before it has returned. *)
Theorem start_in_fixed_sequence
    (logger : logging) (services : behaviour) (tr : trace) :
  exists delta,
    (start logger services tr).1 = tr ++ delta
    /\ (forall pre s post,
          [Db; Network; Eth1; Chain; OpPool; Sync; Rpc] = pre ++ s :: post ->
          (s ∈ calls_of Start delta
           <-> logger start_message tr = Fulfilled tt
               /\ all_fulfil services Start pre (tr ++ [Logged start_message]))
          /\ (s ∈ completed_of Start delta
              <-> logger start_message tr = Fulfilled tt
                  /\ all_fulfil services Start (pre ++ [s])
                                (tr ++ [Logged start_message])))
    /\ calls_of Start delta `prefix_of` [Db; Network; Eth1; Chain; OpPool; Sync; Rpc]
    /\ calls_of Stop delta = []
    /\ sequential None delta = true
    /\ (forall p s q,
          delta = p ++ Called Start s :: q ->
          completed_of Start p = calls_of Start p)
    /\ ((start logger services tr).2 = Fulfilled tt
        <-> logger start_message tr = Fulfilled tt
            /\ all_fulfil services Start [Db; Network; Eth1; Chain; OpPool; Sync; Rpc]
                          (tr ++ [Logged start_message]))
    /\ ((start logger services tr).2 = Fulfilled tt ->
        calls_of Start delta = [Db; Network; Eth1; Chain; OpPool; Sync; Rpc]
        /\ completed_of Start delta = [Db; Network; Eth1; Chain; OpPool; Sync; Rpc]).
Proof.
  rewrite start_unfold.
  destruct (logger start_message tr) as [[]|e|] eqn:Hlog.
  - destruct (run_all_shape services Start start_order (tr ++ [Logged start_message]))
      as (pre & tail & r & Hrun & Hend & _ & _ & Hful & Hcalls).
    destruct (run_all_called services Start start_order _ _ _ start_order_NoDup Hrun)
      as (d & Heq & Hiff).
    apply app_inv_head in Heq. subst d.
    exists (Logged start_message :: block Start pre ++ tail).
    rewrite Hrun. cbn [fst snd].
    split; [by rewrite <- app_assoc|].
    split.
    { intros pre' s post Hsplit. destruct (Hiff pre' s post Hsplit) as [H1 H2].
      cbn [calls_of completed_of]. rewrite H1, H2. tauto. }
    split; [exact Hcalls|].
    split.
    { cbn [calls_of]. rewrite calls_of_app, calls_of_block_other by discriminate.
      by apply (calls_of_ending_other Stop Start tail r). }
    split.
    { cbn [sequential]. rewrite sequential_block.
      by apply (sequential_ending Start tail r). }
    split.
    { intros [|ev p] s q Heq; [discriminate|]. simplify_eq/=.
      by apply (block_split Start pre tail r p s q). }
    split.
    { pose proof (proj1 (run_all_outcome services Start start_order
                           (tr ++ [Logged start_message]))) as Hout.
      rewrite Hrun in Hout. cbn [snd] in Hout. rewrite Hout. tauto. }
    intros ->. rewrite (Hful eq_refl). inversion Hend; subst.
    cbn [calls_of completed_of].
    by rewrite app_nil_r, calls_of_block, completed_of_block.
  - exists []. cbn [fst snd]. rewrite app_nil_r.
    split; [reflexivity|].
    split.
    { intros pre s post _. simpl. rewrite elem_of_nil.
      split; split; [tauto|intros [[=] _]|tauto|intros [[=] _]]. }
    split; [apply prefix_nil|]. split; [reflexivity|]. split; [reflexivity|].
    split; [by intros [|? ?] ? ? ?|].
    split; [split; [discriminate|intros [[=] _]]|discriminate].
  - exists []. cbn [fst snd]. rewrite app_nil_r.
    split; [reflexivity|].
    split.
    { intros pre s post _. simpl. rewrite elem_of_nil.
      split; split; [tauto|intros [[=] _]|tauto|intros [[=] _]]. }
    split; [apply prefix_nil|]. split; [reflexivity|]. split; [reflexivity|].
    split; [by intros [|? ?] ? ? ?|].
    split; [split; [discriminate|intros [[=] _]]|discriminate].
Qed.

(** With services that all start the whole sequence is run; with a network
    that never finishes starting the chain observer is never called. *)
Lemma start_in_fixed_sequence_witness :
  ((start quiet all_ok []).2 = Fulfilled tt
   /\ calls_of Start (start quiet all_ok []).1
      = [Db; Network; Eth1; Chain; OpPool; Sync; Rpc])
  /\ (Network ∈ calls_of Start (start quiet (hangs_at Start Network) []).1
      /\ Eth1 ∉ calls_of Start (start quiet (hangs_at Start Network) []).1).
Proof.
  split.
  - destruct (start_in_fixed_sequence quiet all_ok [])
      as (delta & Heq & _ & _ & _ & _ & _ & _ & Hall).
    simpl app in Heq. rewrite Heq.
    split; [reflexivity|]. exact (proj1 (Hall eq_refl)).
  - destruct (start_in_fixed_sequence quiet (hangs_at Start Network) [])
      as (delta & Heq & Hiff & _).
    simpl app in Heq. rewrite Heq. split.
    + apply (proj1 (Hiff [Db] Network [Eth1; Chain; OpPool; Sync; Rpc] eq_refl)).
      split; [reflexivity|]. simpl. repeat split.
    + intros Hin.
      apply (proj1 (Hiff [Db; Network] Eth1 [Chain; OpPool; Sync; Rpc] eq_refl)) in Hin.
      destruct Hin as (_ & _ & H & _). discriminate H.
Defined.

(** X3.  [start()] fulfils exactly when the log call returns and every
    service's [start], called in order, fulfils; it rejects with [e] exactly
    when the log call throws [e], or it returns and some service's [start]
    rejects with [e] after all the services before it fulfilled; it never
    settles exactly when the log call never returns, or it returns and some
    service's [start] never settles after all the services before it
    fulfilled. *)
Theorem start_outcome (logger : logging) (services : behaviour) (tr : trace) :
  ((start logger services tr).2 = Fulfilled tt
   <-> logger start_message tr = Fulfilled tt
       /\ all_fulfil services Start start_order (tr ++ [Logged start_message]))
  /\ (forall e,
        (start logger services tr).2 = Rejected e
        <-> logger start_message tr = Rejected e
            \/ (logger start_message tr = Fulfilled tt
                /\ exists pre s post,
                     start_order = pre ++ s :: post
                     /\ all_fulfil services Start pre (tr ++ [Logged start_message])
                     /\ services Start s
                          ((tr ++ [Logged start_message]) ++ block Start pre)
                        = Rejected e))
  /\ ((start logger services tr).2 = Pending
      <-> logger start_message tr = Pending
          \/ (logger start_message tr = Fulfilled tt
              /\ exists pre s post,
                   start_order = pre ++ s :: post
                   /\ all_fulfil services Start pre (tr ++ [Logged start_message])
                   /\ services Start s
                        ((tr ++ [Logged start_message]) ++ block Start pre)
                      = Pending)).
Proof.
  rewrite start_unfold.
  pose proof (run_all_outcome services Start start_order
                (tr ++ [Logged start_message])) as (Hf & Hr & Hp).
  destruct (logger start_message tr) as [[]|e0|] eqn:Hlog.
  - split; [rewrite Hf; tauto|]. split.
    + intros e. rewrite Hr. split; [by right|]. by intros [[=]|[_ ?]].
    + rewrite Hp. split; [by right|]. by intros [[=]|[_ ?]].
  - cbn [snd]. split; [split; [discriminate|by intros [[=] _]]|]. split.
    + intros e. split; [intros [= ->]; by left|]. by intros [[= ->]|[[=] _]].
    + split; [discriminate|]. by intros [[=]|[[=] _]].
  - cbn [snd]. split; [split; [discriminate|by intros [[=] _]]|]. split.
    + intros e. split; [discriminate|]. by intros [[=]|[[=] _]].
    + split; [by left|done].
Qed.

(** A logger that throws: [start()] rejects although every service would
    start; and the chain observer failing to start. *)
Lemma start_outcome_witness :
  (start (throwing (Cause "log file closed")) all_ok []).2
  = Rejected (Cause "log file closed")
  /\ (start quiet (fails_at Start Eth1 (Cause "no provider")) []).2
     = Rejected (Cause "no provider").
Proof.
  split.
  - apply (proj2 (proj1 (proj2 (start_outcome
                                   (throwing (Cause "log file closed")) all_ok []))
                        (Cause "log file closed"))).
    by left.
  - apply (proj2 (proj1 (proj2 (start_outcome
                                   quiet (fails_at Start Eth1 (Cause "no provider")) []))
                        (Cause "no provider"))).
    right. split; [reflexivity|].
    exists [Db; Network], Eth1, [Chain; OpPool; Sync; Rpc].
    split; [reflexivity|]. split; [simpl; repeat split|reflexivity].
Defined.

End OrchestratorFacts.

Module ConstructMore.

Import Compose Construct ConstructFacts Vocabulary.

Lemma wp_unit (c : M unit) (Q : state -> Prop) st0 :
  wp c (fun _ st => Q st) st0 -> forall st, c st0 = Done tt st -> Q st.
Proof. unfold wp. intros H st E. by rewrite E in H. Qed.

Lemma assoc_with_field_same k v fs : assoc k (with_field k v fs) = Some v.
Proof.
  induction fs as [|[k' v'] fs IH]; simpl.
  - by rewrite String.eqb_refl.
  - destruct (String.eqb k k') eqn:E; simpl; [by rewrite String.eqb_refl|].
    by rewrite E.
Qed.

Lemma assoc_with_field_other k k' v fs :
  k' <> k -> assoc k' (with_field k v fs) = assoc k' fs.
Proof.
  intros Hne. apply String.eqb_neq in Hne.
  induction fs as [|[k0 v0] fs IH]; simpl.
  - by rewrite Hne.
  - destruct (String.eqb k k0) eqn:E; simpl.
    + apply String.eqb_eq in E. subst k0. by rewrite Hne.
    + by rewrite IH.
Qed.

(** The arguments of the instances allocated for the API list. *)
Lemma ctor_args_api_refs pre clss args rest t r :
  map (fun v => (ctor_arg {| heap := pre ++ map (fun cls => Instance cls args) clss ++ rest;
                             this := t; reactions := r |} v 0,
                 ctor_arg {| heap := pre ++ map (fun cls => Instance cls args) clss ++ rest;
                             this := t; reactions := r |} v 1))
      (map VRef (seq (length pre) (length clss)))
  = replicate (length clss)
              (default VUndefined (args !! 0), default VUndefined (args !! 1)).
Proof.
  revert pre. induction clss as [|cls clss IH]; intros pre; [reflexivity|].
  simpl. f_equal.
  - by rewrite list_lookup_middle.
  - specialize (IH (pre ++ [Instance cls args])).
    rewrite length_app, <- app_assoc in IH. simpl in IH.
    replace (length pre + 1) with (S (length pre)) in IH by lia.
    exact IH.
Qed.

Lemma wpe_bind {A B} (c : M A) (k : A -> M B) Q E st :
  wpe c (fun a st' => wpe (k a) Q E st') E st -> wpe (c ≫= k) Q E st.
Proof. unfold wpe, mbind, M_bind. destruct (c st) as [a st'|e]; auto. Qed.

Lemma wpe_ret {A} (a : A) (Q : A -> state -> Prop) E st :
  Q a st -> wpe (mret a) Q E st.
Proof. auto. Qed.

Lemma wpe_prim {A} (c : M A) (Q : A -> state -> Prop) E st a st' :
  c st = Done a st' -> Q a st' -> wpe c Q E st.
Proof. unfold wpe. by intros ->. Qed.

Lemma wpe_lift_inl {A} (r : exn + A) (Q : A -> state -> Prop) (E : exn -> Prop) st e :
  r = inl e -> E e -> wpe (lift r) Q E st.
Proof. by intros ->. Qed.

(** A computation that can only throw, throws. *)
Lemma wpe_throws (c : M unit) (E : exn -> Prop) st0 :
  wpe c (fun _ _ => False) E st0 -> exists e, c st0 = Thrown e /\ E e.
Proof. unfold wpe. destruct (c st0) as [[] st|e]; [tauto|eauto]. Qed.

Lemma call_get_no_get v k :
  has_no_get v = true -> exists msg, call_get v k = inl (TypeError msg).
Proof. destruct v; simpl; try discriminate; eauto. Qed.

Ltac wpe_step :=
  lazymatch goal with
  | |- wpe (mbind _ _) _ _ _ => apply wpe_bind
  | |- wpe (mret _) _ _ _ => apply wpe_ret
  | |- wpe (lift (call_get ?v ?k)) _ _ _ =>
      let x := fresh "msg" in
      let Hx := fresh "Hmsg" in
      destruct (call_get_no_get v k ltac:(assumption)) as [x Hx];
      eapply wpe_lift_inl; [exact Hx|]
  | |- wpe _ _ _ _ => eapply wpe_prim; [reflexivity|]; simpl
  end.

Ltac run_constructor dc opts logger :=
  unfold Construct.constructor, with_logging, conf_section, createPeerId, fresh;
  generalize (compose dc opts); intros conf;
  destruct logger as [lg|]; [destruct (truthy lg) eqn:Hlg|];
  repeat wp_step; subst.

Ltac same_levels :=
  repeat match goal with
         | H1 : ?r = inr ?x, H2 : ?r = inr ?y |- _ => rewrite H1 in H2; simplify_eq
         end.

Ltac distinct_values :=
  repeat (apply NoDup_cons; split;
          [rewrite ?elem_of_cons, elem_of_nil; intuition discriminate|]);
  apply NoDup_nil_2.

Section BeaconNode.

Variable defaultConf : ConfigTree.
Variable module_key : Module_ -> string.
Variable createPeerId_state : pstate.

Notation constructor := (constructor defaultConf module_key createPeerId_state).

(** X9.  A completed construction has assigned the eleven fields of the
    node, in this order; [conf] is the merged configuration and [config] the
    one given; the eight service fields refer to eight different instances,
    one of each expected class. *)
Theorem constructor_assigns_fields opts config logger st :
  constructor opts config logger fresh = Done tt st ->
  field_names st
  = ["conf"; "config"; "logger"; "reps"; "db"; "network"; "eth1"; "opPool";
     "chain"; "sync"; "rpc"]
  /\ field st "conf" = VRecord (compose defaultConf opts)
  /\ field st "config" = config
  /\ map (class_of st)
         (map (field st) ["reps"; "db"; "network"; "eth1"; "opPool"; "chain"; "sync"; "rpc"])
     = map Some ["ReputationStore"; "BeaconDB"; "Libp2pNetwork"; "EthersEth1Notifier";
                 "OpPool"; "BeaconChain"; "Sync"; "JSONRPC"]
  /\ NoDup (map (field st)
                ["reps"; "db"; "network"; "eth1"; "opPool"; "chain"; "sync"; "rpc"]).
Proof.
  revert st. apply wp_unit.
  run_constructor defaultConf opts logger.
  - split; [reflexivity|]. split; [reflexivity|]. split; [reflexivity|].
    split; [read_heap|distinct_values].
  - split; [reflexivity|]. split; [reflexivity|]. split; [reflexivity|].
    split; [read_heap|distinct_values].
  - split; [reflexivity|]. split; [reflexivity|]. split; [reflexivity|].
    split; [read_heap|distinct_values].
Qed.

(** X10.  [logger || new WinstonLogger()]: a truthy logger given to the
    constructor is stored as it is and nothing is allocated for it; without
    one, or with a falsy one ([null], [undefined], ...), a [WinstonLogger] is
    created with no arguments, before anything else, and stored instead. *)
Theorem constructor_logger opts config logger st :
  constructor opts config logger fresh = Done tt st ->
  if match logger with Some l => truthy l | None => false end
  then Some (field st "logger") = logger
       /\ heap st !! 0 = Some (Instance "ReputationStore" [])
  else field st "logger" = VRef 0
       /\ heap st !! 0 = Some (Instance "WinstonLogger" [])
       /\ heap st !! 1 = Some (Instance "ReputationStore" []).
Proof.
  revert st. apply wp_unit.
  run_constructor defaultConf opts logger; simpl; rewrite ?Hlg; repeat split.
Qed.

(** X11.  Apart from the sync RPC helper, every instance is constructed
    with the node's own instances: the operation pool with the node's [eth1]
    and [db]; the chain with the node's [db], [eth1] and [opPool]; the
    database with a controller made for it; and every API instance with an
    empty options record and the node's [chain], [db] and [eth1]; all of
    them with the [config] given to the constructor. *)
Theorem constructor_injects_own_instances opts config logger st :
  constructor opts config logger fresh = Done tt st ->
  (injected st (field st "opPool") "eth1" = field st "eth1"
   /\ injected st (field st "opPool") "db" = field st "db")
  /\ (injected st (field st "chain") "config" = config
      /\ injected st (field st "chain") "db" = field st "db"
      /\ injected st (field st "chain") "eth1" = field st "eth1"
      /\ injected st (field st "chain") "opPool" = field st "opPool")
  /\ (injected st (field st "network") "config" = config
      /\ injected st (field st "eth1") "config" = config
      /\ injected st (field st "sync") "config" = config
      /\ injected st (field st "sync") "eth1" = field st "eth1"
      /\ injected st (field st "sync") "opPool" = field st "opPool")
  /\ (arg_field st (field st "db") 0 "config" = config
      /\ class_of st (arg_field st (field st "db") 0 "controller")
         = Some "LevelDbController"
      /\ ctor_arg st (arg_field st (field st "db") 0 "controller") 1 = VRecord [])
  /\ (exists refs,
        injected st (field st "rpc") "apis" = VArray refs
        /\ map (fun r => (ctor_arg st r 0, ctor_arg st r 1)) refs
           = replicate (length refs)
               (VRecord [],
                VRecord [("config", config); ("chain", field st "chain");
                         ("db", field st "db"); ("eth1", field st "eth1")])).
Proof.
  revert st. apply wp_unit.
  run_constructor defaultConf opts logger.
  - split; [repeat split|]. split; [repeat split|]. split; [repeat split|].
    split; [repeat split|].
    exists (map VRef (seq 13 (length clss))). split; [read_heap|].
    rewrite (List.length_map VRef), length_seq.
    apply (ctor_args_api_refs [_; _; _; _; _; _; _; _; _; _; _; _; _]).
  - split; [repeat split|]. split; [repeat split|]. split; [repeat split|].
    split; [repeat split|].
    exists (map VRef (seq 14 (length clss))). split; [read_heap|].
    rewrite (List.length_map VRef), length_seq.
    apply (ctor_args_api_refs [_; _; _; _; _; _; _; _; _; _; _; _; _; _]).
  - split; [repeat split|]. split; [repeat split|]. split; [repeat split|].
    split; [repeat split|].
    exists (map VRef (seq 14 (length clss))). split; [read_heap|].
    rewrite (List.length_map VRef), length_seq.
    apply (ctor_args_api_refs [_; _; _; _; _; _; _; _; _; _; _; _; _; _]).
Qed.

(** X12.  The options each service is constructed with are its section of
    the merged configuration with [loggingLevel] set to the level the
    logging options hold for its module: the section's other properties are
    kept and a [loggingLevel] of its own is overridden.  The sync RPC helper
    takes the [sync] section with the level of the network module.  The
    operation pool and the API server get their section as it is. *)
Theorem constructor_options opts config logger st :
  constructor opts config logger fresh = Done tt st ->
  let conf := compose defaultConf opts in
  Forall (fun '(svc, section, md) =>
            exists level fs,
              call_get (default VUndefined (assoc "loggingOptions" conf)) (module_key md)
              = inr level
              /\ ctor_arg st svc 0 = VRecord fs
              /\ assoc "loggingLevel" fs = Some level
              /\ (forall k, k <> "loggingLevel" ->
                            assoc k fs
                            = assoc k (spread (default VUndefined (assoc section conf)))))
         [(arg_field st (field st "db") 0 "controller", "db", DATABASE);
          (injected st (field st "sync") "rpc", "sync", NETWORK);
          (field st "network", "network", NETWORK);
          (field st "eth1", "eth1", ETH1);
          (field st "chain", "chain", CHAIN);
          (field st "sync", "sync", SYNC)]
  /\ ctor_arg st (field st "opPool") 0 = default VUndefined (assoc "opPool" conf)
  /\ ctor_arg st (field st "rpc") 0 = default VUndefined (assoc "api" conf).
Proof.
  revert st. apply wp_unit.
  run_constructor defaultConf opts logger.
  - split; [|split; read_heap]. same_levels.
    repeat (apply Forall_cons; split;
            [cbv beta iota; eexists _, _; split; [eassumption|];
             split; [read_heap|];
             split; [apply assoc_with_field_same|
                     intros k Hk; by apply assoc_with_field_other]|]).
    apply Forall_nil_2.
  - split; [|split; read_heap]. same_levels.
    repeat (apply Forall_cons; split;
            [cbv beta iota; eexists _, _; split; [eassumption|];
             split; [read_heap|];
             split; [apply assoc_with_field_same|
                     intros k Hk; by apply assoc_with_field_other]|]).
    apply Forall_nil_2.
  - split; [|split; read_heap]. same_levels.
    repeat (apply Forall_cons; split;
            [cbv beta iota; eexists _, _; split; [eassumption|];
             split; [read_heap|];
             split; [apply assoc_with_field_same|
                     intros k Hk; by apply assoc_with_field_other]|]).
    apply Forall_nil_2.
Qed.

(** X13.  The constructor calls [get] on the merged [loggingOptions]
    before it reads anything of the [api] section: when [loggingOptions] has
    no [get] (it is missing, [null], a primitive, an array, or a plain
    record without a [get] property, as a configuration file gives),
    construction throws a [TypeError], whatever the rest of the
    configuration, the logger and the [config]. *)
Theorem constructor_needs_logging_get opts config logger :
  has_no_get (default VUndefined (assoc "loggingOptions" (compose defaultConf opts)))
  = true ->
  exists msg, constructor opts config logger fresh = Thrown (TypeError msg).
Proof.
  intros Hget.
  cut (wpe (constructor opts config logger) (fun _ _ => False) is_type_error fresh).
  { intros H. destruct (wpe_throws _ _ _ H) as (e & He & msg & ->). eauto. }
  unfold Construct.constructor, with_logging, conf_section, createPeerId, fresh.
  revert Hget. generalize (compose defaultConf opts). intros conf Hget.
  destruct logger as [lg|]; [destruct (truthy lg) eqn:Hlg|];
    repeat wpe_step; by eexists.
Qed.

End BeaconNode.

Import Samples.

Lemma node_built :
  constructor defaultConf module_key PPending [] config None fresh = Done tt node.
Proof. vm_compute. reflexivity. Defined.

(** The node built from the sample defaults. *)
Lemma constructor_assigns_fields_witness :
  constructor defaultConf module_key PPending [] config None fresh = Done tt node
  /\ field_names node
     = ["conf"; "config"; "logger"; "reps"; "db"; "network"; "eth1"; "opPool";
        "chain"; "sync"; "rpc"]
  /\ NoDup (map (field node)
                ["reps"; "db"; "network"; "eth1"; "opPool"; "chain"; "sync"; "rpc"]).
Proof.
  split; [exact node_built|].
  pose proof (constructor_assigns_fields defaultConf module_key PPending
                [] config None node node_built) as H.
  split; [exact (proj1 H)|exact (proj2 (proj2 (proj2 (proj2 H))))].
Defined.

(** [null] given for the logger. *)
Lemma constructor_logger_witness :
  constructor defaultConf module_key PPending [] config (Some VNull) fresh
  = Done tt node_null_logger
  /\ field node_null_logger "logger" = VRef 0
  /\ heap node_null_logger !! 0 = Some (Instance "WinstonLogger" []).
Proof.
  assert (Hb : constructor defaultConf module_key PPending [] config (Some VNull) fresh
               = Done tt node_null_logger)
    by (vm_compute; reflexivity).
  split; [exact Hb|].
  pose proof (constructor_logger defaultConf module_key PPending
                [] config (Some VNull) node_null_logger Hb) as H.
  split; [exact (proj1 H)|exact (proj1 (proj2 H))].
Defined.

Lemma constructor_injects_own_instances_witness :
  constructor defaultConf module_key PPending [] config None fresh = Done tt node
  /\ injected node (field node "chain") "db" = field node "db"
  /\ injected node (field node "opPool") "eth1" = field node "eth1".
Proof.
  split; [exact node_built|].
  pose proof (constructor_injects_own_instances defaultConf module_key PPending
                [] config None node node_built) as H.
  split; [exact (proj1 (proj2 (proj1 (proj2 H))))|exact (proj1 (proj1 H))].
Defined.

Lemma constructor_options_witness :
  constructor defaultConf module_key PPending [] config None fresh = Done tt node
  /\ ctor_arg node (field node "opPool") 0
     = default VUndefined (assoc "opPool" (compose defaultConf []))
  /\ ctor_arg node (field node "rpc") 0
     = default VUndefined (assoc "api" (compose defaultConf [])).
Proof.
  split; [exact node_built|].
  exact (proj2 (constructor_options defaultConf module_key PPending
                  [] config None node node_built)).
Defined.

(** A configuration file's plain record for the logging options. *)
Lemma constructor_needs_logging_get_witness :
  has_no_get (default VUndefined
                (assoc "loggingOptions" (compose defaultConf opts_plain_logging))) = true
  /\ exists msg,
       constructor defaultConf module_key PPending opts_plain_logging config None fresh
       = Thrown (TypeError msg).
Proof.
  split; [reflexivity|].
  apply constructor_needs_logging_get. reflexivity.
Defined.

End ConstructMore.
